(** * LLM research agent: notifier chunking, delivery, and the execution wrapper

    A shallow embedding of [src/telegram_notifier.py] and of the
    [execute]/[execute_async] wrappers of [src/crew.py].

    Python [str] values are modelled as [list ascii]; [len] is [length],
    slicing [s[i:j]] is [firstn]/[skipn], [+] is [++].  The notifier's
    coroutine runs in a small monad over the state of the remote endpoint
    and the trace of sends and sleeps; exceptions are the instances of
    [Exception].  The wrapper runs against an environment that supplies
    the wall clock, read as a rational number of seconds, and the answer of
    the orchestration engine.  Calls to the logger change neither results
    nor control flow and are left out.

    Module [Full] models the wrapper, the notifier and the scheduler's job
    once more with every way a call can end: a value, an instance of
    [Exception], or an exception that no [except Exception] catches
    ([KeyboardInterrupt], [SystemExit], [asyncio.CancelledError]); there the
    clock readings are binary64 floats and their difference is the float
    difference. *)

From Stdlib Require Import Ascii String.
From Stdlib Require Import DecimalString.
From Stdlib Require Import Floats.
From Stdlib Require Import List Arith Lia ZArith QArith Bool.
Import ListNotations.
Close Scope Q_scope.
Close Scope Z_scope.
Open Scope nat_scope.

(** ** Python strings *)

Definition str := list ascii.

Definition newline : ascii := "010"%char.

(** Truthiness of a string: [if s:] holds exactly for non-empty strings. *)
Definition truthy (s : str) : bool :=
  match s with
  | [] => false
  | _ :: _ => true
  end.

(** [s[i:j]] for [0 <= i <= j]; out-of-range bounds are clamped as Python does. *)
Definition slice (s : str) (i j : nat) : str := firstn (j - i) (skipn i s).

(** [range(start, stop, step)] for a positive step.  [range_from] carries the
    number of iterations that are still allowed; [stop - start] of them
    always suffice when [step >= 1]. *)
Fixpoint range_from (fuel start stop step : nat) : list nat :=
  match fuel with
  | O => []
  | S fuel' =>
      if start <? stop then start :: range_from fuel' (start + step) stop step
      else []
  end.

Definition py_range (start stop step : nat) : list nat :=
  range_from (stop - start) start stop step.

(** [s.split('\n')]: the fields between newlines, always at least one. *)
Fixpoint split_lines (s : str) : list str :=
  match s with
  | [] => [[]]
  | c :: s' =>
      if Ascii.eqb c newline then [] :: split_lines s'
      else match split_lines s' with
           | l :: ls => (c :: l) :: ls
           | [] => [[c]]
           end
  end.

(** ['\n'.join(lines)] *)
Fixpoint join_lines (ls : list str) : str :=
  match ls with
  | [] => []
  | [l] => l
  | l :: ls' => l ++ newline :: join_lines ls'
  end.

(** ** [TelegramNotifier._split_message] *)

Definition MAX_MESSAGE_LENGTH : nat := 4096.

(** The inner loop
    [for i in range(0, len(line), MAX - 100): chunks.append(line[i:i + MAX - 100])]. *)
Definition hard_split_into (chunks : list str) (line : str) : list str :=
  fold_left
    (fun chunks i => chunks ++ [slice line i (i + MAX_MESSAGE_LENGTH - 100)])
    (py_range 0 (length line) (MAX_MESSAGE_LENGTH - 100))
    chunks.

(** One iteration of [for line in lines:] on the pair
    [(chunks, current_chunk)]. *)
Definition split_step (st : list str * str) (line : str) : list str * str :=
  let '(chunks, current_chunk) := st in
  if MAX_MESSAGE_LENGTH <? length line then
    let chunks :=
      if truthy current_chunk then chunks ++ [current_chunk] else chunks in
    (hard_split_into chunks line, [])
  else if MAX_MESSAGE_LENGTH <? length current_chunk + length line + 1 then
    (chunks ++ [current_chunk], line)
  else
    (chunks,
     current_chunk ++ (if truthy current_chunk then [newline] else []) ++ line).

Definition _split_message (message : str) : list str :=
  if length message <=? MAX_MESSAGE_LENGTH then [message]
  else
    let '(chunks, current_chunk) :=
      fold_left split_step (split_lines message) ([], []) in
    if truthy current_chunk then chunks ++ [current_chunk] else chunks.

(** The reading of "re-joined with a newline at line boundaries, directly
    at hard splits": some choice of one separator per chunk boundary, each
    either empty or a single newline, gives back the message. *)
Fixpoint rejoin (chunks : list str) (seps : list str) : str :=
  match chunks with
  | [] => []
  | [c] => c
  | c :: chunks' =>
      match seps with
      | [] => c ++ rejoin chunks' []
      | s :: seps' => c ++ s ++ rejoin chunks' seps'
      end
  end.

Definition is_separator (s : str) : Prop := s = [] \/ s = [newline].

Definition reconstructs (message : str) (chunks : list str) : Prop :=
  exists seps, Forall is_separator seps /\ rejoin chunks seps = message.

(** [ceil(n / d)] on naturals. *)
Definition ceil_div (n d : nat) : nat := (n + d - 1) / d.

(** The pieces the inner loop appends for one over-long line. *)
Definition hard_split (line : str) : list str :=
  map (fun i => slice line i (i + MAX_MESSAGE_LENGTH - 100))
      (py_range 0 (length line) (MAX_MESSAGE_LENGTH - 100)).

(** What one iteration keeps true: the finished chunks and the chunk under
    construction all fit. *)
Definition fits (st : list str * str) : Prop :=
  Forall (fun chunk => length chunk <= MAX_MESSAGE_LENGTH) (fst st) /\
  length (snd st) <= MAX_MESSAGE_LENGTH.

(** Chunks written out one after the other, each behind its own
    separator. *)
Fixpoint glue (seps chunks : list str) : str :=
  match seps, chunks with
  | s :: seps', c :: chunks' => s ++ c ++ glue seps' chunks'
  | _, _ => []
  end.

(** All the chunks a state of the line loop stands for. *)
Definition chunks_of (st : list str * str) : list str :=
  if truthy (snd st) then fst st ++ [snd st] else fst st.

(** What ['\n'.join] puts before a line that follows the lines [done]. *)
Definition line_break (done : list str) : str :=
  match done with
  | [] => []
  | _ :: _ => [newline]
  end.

(** The state [st] reached after the lines [done] still spells these
    lines: with a separator before each chunk, the first one empty. *)
Definition spells (done : list str) (st : list str * str) : Prop :=
  exists seps,
    length seps = length (chunks_of st) /\
    Forall is_separator seps /\
    hd [] seps = [] /\
    (done = [] <-> chunks_of st = []) /\
    glue seps (chunks_of st) = join_lines done.

(** Inputs used in concrete runs of the chunking. *)

(** 4097 newlines: 4098 empty lines. *)
Definition blank_message : str := repeat newline 4097.

(** A first line of exactly 4096 characters, then a second line. *)
Definition full_line : str := repeat "a"%char 4096.
Definition full_line_message : str := full_line ++ [newline; "b"%char].

(** One line of 5000 characters. *)
Definition long_line : str := repeat "a"%char 5000.

Definition short_message : str := list_ascii_of_string "Test message".

(** ** [TelegramNotifier.send_message] *)

(** Exceptions that [except Exception] catches, that is the instances of
    [Exception], split by whether [except TelegramError] catches them too;
    the payload is [str(e)].  An exception that is not an instance of
    [Exception] is the third ending of [Full.ending] below. *)
Inductive exception : Type :=
| TelegramError (message : str)
| OtherException (message : str).

Definition str_of (e : exception) : str :=
  match e with
  | TelegramError m => m
  | OtherException m => m
  end.

Definition is_TelegramError (e : exception) : bool :=
  match e with
  | TelegramError _ => true
  | OtherException _ => false
  end.

(** The keyword arguments of [bot.send_message]. *)
Record send_request : Type := {
  req_chat_id : str;
  req_text : str;
  req_parse_mode : option str;
  req_disable_web_page_preview : bool
}.

(** What the coroutine does to the outside, in order. *)
Inductive event : Type :=
| Send (r : send_request)
| Sleep (seconds : nat).

(** [ParseMode.MARKDOWN] of the transport library. *)
Definition MARKDOWN : option str := Some (list_ascii_of_string "Markdown").

(** [str.lower] on the ASCII letters. *)
Definition lower_ascii (c : ascii) : ascii :=
  let n := nat_of_ascii c in
  if (65 <=? n) && (n <=? 90) then ascii_of_nat (n + 32) else c.

Definition lower (s : str) : str := map lower_ascii s.

Fixpoint starts_with (p s : str) : bool :=
  match p, s with
  | [], _ => true
  | _ :: _, [] => false
  | a :: p', b :: s' => Ascii.eqb a b && starts_with p' s'
  end.

(** [p in s] *)
Fixpoint contains (p s : str) : bool :=
  starts_with p s ||
  match s with
  | [] => false
  | _ :: s' => contains p s'
  end.

Definition cant_parse : str := list_ascii_of_string "can't parse".

(** The test of the [except TelegramError] handler. *)
Definition is_parse_error (e : exception) : bool :=
  contains cant_parse (lower (str_of e)).

(** [enumerate(chunks)], counting from [i]. *)
Fixpoint enumerate_from (i : nat) (chunks : list str) : list (nat * str) :=
  match chunks with
  | [] => []
  | c :: chunks' => (i, c) :: enumerate_from (S i) chunks'
  end.

Section Delivery.

(** The remote endpoint: its state, and how it answers one send
    ([None]: accepted; [Some e]: the call raises [e]). *)
Variable bot : Type.
Variable bot_send_message : bot -> send_request -> bot * option exception.

(** [self.chat_id] *)
Variable chat_id : str.

Record world : Type := { w_bot : bot; w_trace : list event }.

(** Computations that act on the world and return or raise. *)
Definition M (A : Type) : Type := world -> world * (exception + A).

Definition ret {A} (a : A) : M A := fun w => (w, inr a).

Definition raise {A} (e : exception) : M A := fun w => (w, inl e).

Definition bind {A B} (m : M A) (k : A -> M B) : M B :=
  fun w =>
    match m w with
    | (w', inr a) => k a w'
    | (w', inl e) => (w', inl e)
    end.

(** [try: body / except <class> as e: handler e] *)
Definition try_except {A} (body : M A) (catches : exception -> bool)
           (handler : exception -> M A) : M A :=
  fun w =>
    match body w with
    | (w', inr a) => (w', inr a)
    | (w', inl e) => if catches e then handler e w' else (w', inl e)
    end.

Definition emit (ev : event) (w : world) : world :=
  {| w_bot := w_bot w; w_trace := w_trace w ++ [ev] |}.

(** [await self.bot.send_message(...)] *)
Definition await_send (r : send_request) : M unit :=
  fun w =>
    let (b', answer) := bot_send_message (w_bot w) r in
    let w' := {| w_bot := b'; w_trace := w_trace w ++ [Send r] |} in
    match answer with
    | None => (w', inr tt)
    | Some e => (w', inl e)
    end.

(** [await asyncio.sleep(seconds)] *)
Definition await_sleep (seconds : nat) : M unit :=
  fun w => (emit (Sleep seconds) w, inr tt).

Definition request (chunk : str) (parse_mode : option str)
           (disable_preview : bool) : send_request :=
  {| req_chat_id := chat_id;
     req_text := chunk;
     req_parse_mode := parse_mode;
     req_disable_web_page_preview := disable_preview |}.

(** The body of [for i, chunk in enumerate(chunks):] for one chunk, with
    [n = len(chunks)]. *)
Definition deliver_chunk (parse_mode : option str) (disable_preview : bool)
           (n i : nat) (chunk : str) : M unit :=
  try_except
    (bind (await_send (request chunk parse_mode disable_preview)) (fun _ =>
       if (Z.of_nat i <? Z.of_nat n - 1)%Z then await_sleep 1 else ret tt))
    is_TelegramError
    (fun e =>
       if is_parse_error e
       then await_send (request chunk None disable_preview)
       else raise e).

Fixpoint deliver (parse_mode : option str) (disable_preview : bool)
         (n : nat) (ichunks : list (nat * str)) : M unit :=
  match ichunks with
  | [] => ret tt
  | (i, chunk) :: rest =>
      bind (deliver_chunk parse_mode disable_preview n i chunk) (fun _ =>
        deliver parse_mode disable_preview n rest)
  end.

Definition send_message (message : str) (parse_mode : option str)
           (disable_preview : bool) : M bool :=
  try_except
    (let chunks := _split_message message in
     bind (deliver parse_mode disable_preview (length chunks)
                   (enumerate_from 0 chunks))
          (fun _ => ret true))
    (fun _ => true)
    (fun _ => ret false).

(** What is left of [send_message] once the loop stands before chunk
    number [i], with [rest] the chunks from there on. *)
Definition send_from (parse_mode : option str) (disable_preview : bool)
           (n i : nat) (rest : list str) : M bool :=
  try_except
    (bind (deliver parse_mode disable_preview n (enumerate_from i rest))
          (fun _ => ret true))
    (fun _ => true)
    (fun _ => ret false).

(** Specification side: every chunk, in order, is accepted by the
    endpoint, at once or on the plain resend after a markup-parse error. *)
Inductive accepted_all (parse_mode : option str) (disable_preview : bool) :
  bot -> list str -> Prop :=
| accepted_nil : forall b, accepted_all parse_mode disable_preview b []
| accepted_direct : forall b b' chunk rest,
    bot_send_message b (request chunk parse_mode disable_preview) = (b', None) ->
    accepted_all parse_mode disable_preview b' rest ->
    accepted_all parse_mode disable_preview b (chunk :: rest)
| accepted_fallback : forall b b1 b2 e chunk rest,
    bot_send_message b (request chunk parse_mode disable_preview) = (b1, Some e) ->
    is_TelegramError e = true ->
    is_parse_error e = true ->
    bot_send_message b1 (request chunk None disable_preview) = (b2, None) ->
    accepted_all parse_mode disable_preview b2 rest ->
    accepted_all parse_mode disable_preview b (chunk :: rest).

(** Specification side: the attempt on one chunk ends in failure [e],
    leaving the endpoint in [b'] after the sends [evs]: either the first
    send fails with something other than a markup-parse error, or the
    plain resend fails. *)
Inductive chunk_fails (parse_mode : option str) (disable_preview : bool)
          (b : bot) (chunk : str) : bot -> list event -> exception -> Prop :=
| fails_first : forall b' e,
    bot_send_message b (request chunk parse_mode disable_preview) = (b', Some e) ->
    is_TelegramError e && is_parse_error e = false ->
    chunk_fails parse_mode disable_preview b chunk b'
                [Send (request chunk parse_mode disable_preview)] e
| fails_resend : forall b1 b2 e e2,
    bot_send_message b (request chunk parse_mode disable_preview) = (b1, Some e) ->
    is_TelegramError e && is_parse_error e = true ->
    bot_send_message b1 (request chunk None disable_preview) = (b2, Some e2) ->
    chunk_fails parse_mode disable_preview b chunk b2
                [Send (request chunk parse_mode disable_preview);
                 Send (request chunk None disable_preview)] e2.

End Delivery.

Arguments Build_world {bot} w_bot w_trace.
Arguments w_bot {bot} w.
Arguments w_trace {bot} w.
Arguments ret {bot A} a w.
Arguments raise {bot A} e w.
Arguments bind {bot A B} m k w.
Arguments try_except {bot A} body catches handler w.
Arguments emit {bot} ev w.
Arguments await_send {bot} bot_send_message r w.
Arguments await_sleep {bot} seconds w.
Arguments deliver_chunk {bot} bot_send_message chat_id parse_mode disable_preview n i chunk w.
Arguments deliver {bot} bot_send_message chat_id parse_mode disable_preview n ichunks w.
Arguments send_message {bot} bot_send_message chat_id message parse_mode disable_preview w.
Arguments send_from {bot} bot_send_message chat_id parse_mode disable_preview n i rest w.
Arguments accepted_all {bot} bot_send_message chat_id parse_mode disable_preview b chunks.
Arguments chunk_fails {bot} bot_send_message chat_id parse_mode disable_preview b chunk b' evs e.

(** A scripted endpoint for concrete runs: it answers the calls from a list,
    one entry per call, and accepts everything once the list is used up. *)
Definition scripted : Type := list (option exception).

Definition scripted_send (b : scripted) (_ : send_request)
  : scripted * option exception :=
  match b with
  | [] => ([], None)
  | answer :: b' => (b', answer)
  end.

Definition start (b : scripted) : world scripted :=
  {| w_bot := b; w_trace := [] |}.

Definition chat : str := list_ascii_of_string "123".

Definition parse_failure : exception :=
  TelegramError (list_ascii_of_string "Can't parse entities: can't find end of the entity").

Definition timed_out : exception :=
  TelegramError (list_ascii_of_string "Timed out").

(** Two lines of 3000 characters: 6001 characters, two chunks. *)
Definition chunk_a : str := repeat "a"%char 3000.
Definition chunk_b : str := repeat "b"%char 3000.
Definition two_chunk_message : str := chunk_a ++ newline :: chunk_b.

(** ** [MentalHealthResearchCrew.execute] and [execute_async] *)

(** [CrewExecutionResult] of [src/models.py].  The [timestamp] field, which
    the model fills in by itself at construction, is left out. *)
Record CrewExecutionResult : Type := {
  execution_id : string;
  status : string;
  report : string;
  error : option string;
  execution_time_seconds : Q
}.

(** How a Python call ends when nothing but instances of [Exception] is
    raised: with a value, or raising an exception that [except Exception]
    catches, given by its [str(e)].  [Full.ending] below adds the ending
    that [except Exception] lets through. *)
Inductive outcome (A : Type) : Type :=
| Returns (value : A)
| Raises (message : string).

Arguments Returns {A} value.
Arguments Raises {A} message.

(** [int(t)] of a float: truncation towards zero. *)
Definition int_of (t : Q) : Z := Z.quot (Qnum t) (Z.pos (Qden t)).

Definition string_of_Z (z : Z) : string := NilEmpty.string_of_int (Z.to_int z).

Section ExecutionWrapper.

(** The environment: the wall clock [time.time()], and the orchestration
    engine, whose answer is already [str(result)] when it returns.  The
    readings are taken as exact rationals here, which serves for the
    statuses and texts of the records; [Full.execute] and
    [Full.execute_async] below have binary64 readings and the float
    difference. *)
Variable env : Type.
Variable time_time : env -> Q * env.
Variable crew_kickoff : env -> outcome string * env.
Variable crew_kickoff_async : env -> outcome string * env.

Definition execute (w : env) : outcome CrewExecutionResult * env :=
  let (now, w) := time_time w in
  let execution_id := ("exec_" ++ string_of_Z (int_of now))%string in
  let (start_time, w) := time_time w in
  let (result, w) := crew_kickoff w in
  match result with
  | Returns report =>
      let (now, w) := time_time w in
      let execution_time := (now - start_time)%Q in
      (Returns {| execution_id := execution_id;
                  status := "success";
                  report := report;
                  error := None;
                  execution_time_seconds := execution_time |}, w)
  | Raises e =>
      let (now, w) := time_time w in
      let execution_time := (now - start_time)%Q in
      let error_msg := ("Crew execution failed: " ++ e)%string in
      (Returns {| execution_id := execution_id;
                  status := "failure";
                  report := "";
                  error := Some error_msg;
                  execution_time_seconds := execution_time |}, w)
  end.

Definition execute_async (w : env) : outcome CrewExecutionResult * env :=
  let (now, w) := time_time w in
  let execution_id := ("exec_" ++ string_of_Z (int_of now))%string in
  let (start_time, w) := time_time w in
  let (result, w) := crew_kickoff_async w in
  match result with
  | Returns report =>
      let (now, w) := time_time w in
      let execution_time := (now - start_time)%Q in
      (Returns {| execution_id := execution_id;
                  status := "success";
                  report := report;
                  error := None;
                  execution_time_seconds := execution_time |}, w)
  | Raises e =>
      let (now, w) := time_time w in
      let execution_time := (now - start_time)%Q in
      let error_msg := ("Async crew execution failed: " ++ e)%string in
      (Returns {| execution_id := execution_id;
                  status := "failure";
                  report := "";
                  error := Some error_msg;
                  execution_time_seconds := execution_time |}, w)
  end.

End ExecutionWrapper.

Arguments execute {env} time_time crew_kickoff w.
Arguments execute_async {env} time_time crew_kickoff_async w.

(** ** The rest of the notifier, and the callers *)

(** [os.getenv]: the process environment, from variable names to values. *)
Definition environ : Type := str -> option str.

(** Truthiness of an [Optional[str]]: [None] and [""] are false. *)
Definition truthy_opt (a : option str) : bool :=
  match a with
  | Some s => truthy s
  | None => false
  end.

(** [a or b] on [Optional[str]]. *)
Definition py_or (a b : option str) : option str :=
  if truthy_opt a then a else b.

(** [a == b] on strings. *)
Fixpoint str_eqb (a b : str) : bool :=
  match a, b with
  | [], [] => true
  | x :: a', y :: b' => Ascii.eqb x y && str_eqb a' b'
  | _, _ => false
  end.

(** *** [TelegramNotifier.__init__] *)

(** The attributes the constructor sets; the client object it builds from
    the token is left out. *)
Record TelegramNotifier : Type := {
  self_bot_token : option str;
  self_chat_id : option str
}.

Definition TELEGRAM_BOT_TOKEN : str := list_ascii_of_string "TELEGRAM_BOT_TOKEN".
Definition TELEGRAM_CHAT_ID : str := list_ascii_of_string "TELEGRAM_CHAT_ID".

(** The result is the new object, or the message of the [ValueError]. *)
Definition TelegramNotifier_init (getenv : environ)
           (bot_token chat_id : option str) : str + TelegramNotifier :=
  let bot_token := py_or bot_token (getenv TELEGRAM_BOT_TOKEN) in
  let chat_id := py_or chat_id (getenv TELEGRAM_CHAT_ID) in
  if negb (truthy_opt bot_token) then
    inl (list_ascii_of_string "TELEGRAM_BOT_TOKEN not found in environment")
  else if negb (truthy_opt chat_id) then
    inl (list_ascii_of_string "TELEGRAM_CHAT_ID not found in environment")
  else
    inr {| self_bot_token := bot_token; self_chat_id := chat_id |}.

(** *** [main] of [src/main.py] *)

Definition required_vars : list str :=
  [list_ascii_of_string "GEMINI_API_KEY";
   list_ascii_of_string "SERPER_API_KEY";
   TELEGRAM_BOT_TOKEN;
   TELEGRAM_CHAT_ID].

(** What [main] goes on to do once [load_dotenv()] and [setup_logging()]
    have returned; [main_entry] below starts at the first line. *)
Inductive main_outcome : Type :=
| ExitMissing (missing_vars : list str)  (* logs the names, [sys.exit(1)] *)
| RunTest                                (* [asyncio.run(test_connection())] *)
| RunOnce                                (* [asyncio.run(run_once())] *)
| RunScheduled                           (* [asyncio.run(run_scheduled())] *)
| ExitUsage.                             (* prints the usage, [sys.exit(1)] *)

Definition main (getenv : environ) (argv : list str) : main_outcome :=
  let missing_vars :=
    filter (fun var => negb (truthy_opt (getenv var))) required_vars in
  match missing_vars with
  | _ :: _ => ExitMissing missing_vars
  | [] =>
      let mode :=
        if 1 <? length argv then nth 1 argv [] else list_ascii_of_string "once" in
      if str_eqb mode (list_ascii_of_string "test") then RunTest
      else if str_eqb mode (list_ascii_of_string "once") then RunOnce
      else if str_eqb mode (list_ascii_of_string "schedule") then RunScheduled
      else ExitUsage
  end.

(** The exit status [main] itself asks for, if any. *)
Definition exits_with (o : main_outcome) : option nat :=
  match o with
  | ExitMissing _ => Some 1
  | ExitUsage => Some 1
  | _ => None
  end.

(** *** [MentalHealthResearchCrew._init_llm] *)

(** The arguments handed to the [LLM] constructor. *)
Record LLM : Type := { llm_model : str; llm_api_key : option str }.

Definition gemini_prefix : str := list_ascii_of_string "gemini/".

Definition _init_llm (getenv : environ) : LLM :=
  let model_name :=
    match getenv (list_ascii_of_string "GEMINI_MODEL_NAME") with
    | Some v => v
    | None => list_ascii_of_string "gemini/gemini-1.5-pro"
    end in
  let model_name :=
    if negb (starts_with gemini_prefix model_name)
    then gemini_prefix ++ model_name
    else model_name in
  {| llm_model := model_name;
     llm_api_key := getenv (list_ascii_of_string "GEMINI_API_KEY") |}.

(** *** [ResearchScheduler.__init__]: the [enabled] flag *)

Definition schedule_enabled (getenv : environ) : bool :=
  str_eqb
    (lower match getenv (list_ascii_of_string "SCHEDULE_ENABLED") with
           | Some v => v
           | None => list_ascii_of_string "true"
           end)
    (list_ascii_of_string "true").

(** *** [ResearchScheduler.start_with_cron] *)

(** The characters [str.split()] takes for blanks, among the first 256. *)
Definition is_space (c : ascii) : bool :=
  let n := nat_of_ascii c in
  ((9 <=? n) && (n <=? 13)) || ((28 <=? n) && (n <=? 32))
  || (n =? 133) || (n =? 160).

(** [s.split()]: the maximal runs of characters that are not blanks. *)
Fixpoint split_ws (s : str) : list str :=
  match s with
  | [] => []
  | c :: s' =>
      if is_space c then split_ws s'
      else
        match s' with
        | [] => [[c]]
        | c' :: _ =>
            if is_space c' then [c] :: split_ws s'
            else match split_ws s' with
                 | w :: ws => (c :: w) :: ws
                 | [] => [[c]]
                 end
        end
  end.

(** [' '.join(fields)] *)
Fixpoint join_spaces (fields : list str) : str :=
  match fields with
  | [] => []
  | [f] => f
  | f :: fields' => f ++ " "%char :: join_spaces fields'
  end.

(** How far the method gets: it returns at once, the unpacking of the
    fields raises [ValueError], or the five fields are handed to
    [CronTrigger] (which may still refuse them). *)
Inductive cron_outcome : Type :=
| CronDisabled
| CronValueError
| CronScheduled (minute hour day month day_of_week : str).

Definition start_with_cron (enabled : bool) (cron_expression : str) : cron_outcome :=
  if negb enabled then CronDisabled
  else
    match split_ws cron_expression with
    | [minute; hour; day; month; day_of_week] =>
        CronScheduled minute hour day month day_of_week
    | _ => CronValueError
    end.

(** The default value of [cron_expression]. *)
Definition daily_at_nine : str := list_ascii_of_string "0 9 * * *".

(** *** The literals of [send_error] and [test_connection] *)

(** The text [send_error] sends.  [warning_sign] stands for the symbols
    that open the literal; they lie outside [ascii]. *)
Definition error_text (warning_sign : str) : str :=
  warning_sign ++ list_ascii_of_string " *Research Crew Error*" ++ [newline; newline]
  ++ list_ascii_of_string "An error occurred during execution:" ++ [newline; newline]
  ++ list_ascii_of_string "``````".

(** The text [test_connection] sends, with [check_mark] for its symbol. *)
Definition connection_text (check_mark : str) : str :=
  check_mark ++ list_ascii_of_string " *Connection Test Successful*"
  ++ [newline; newline] ++ list_ascii_of_string "Bot is ready!".

(** [result.error or "Unknown error"] *)
Definition error_or_unknown (error : option string) : string :=
  match error with
  | Some ""%string => "Unknown error"
  | Some e => e
  | None => "Unknown error"
  end.

(** What [main] does from its first line: [load_dotenv()] and
    [setup_logging()] come first, and if one of them raises (an unknown
    LOG_LEVEL, a log file that cannot be opened) nothing else happens;
    [startup] is the exception they raised, if any, and [getenv] the
    environment as [os.getenv] reads it after [load_dotenv()]. *)
Inductive entry_outcome : Type :=
| StartupRaised (e : str)
| Started (o : main_outcome).

Definition main_entry (startup : option str) (getenv : environ) (argv : list str)
  : entry_outcome :=
  match startup with
  | Some e => StartupRaised e
  | None => Started (main getenv argv)
  end.

(** ** Every way a call can end *)

Module Full.

(** A call returns a value, raises an instance of [Exception], or raises
    an exception that is not one ([KeyboardInterrupt], [SystemExit],
    [asyncio.CancelledError]), given by the name of its class. *)
Inductive ending (A : Type) : Type :=
| Value (a : A)
| Raise (e : exception)
| Escape (name : str).

Arguments Value {A} a.
Arguments Raise {A} e.
Arguments Escape {A} name.

(** *** [crew.py] *)

Record CrewExecutionResult : Type := {
  execution_id : string;
  status : string;
  report : string;
  error : option string;
  execution_time_seconds : float
}.

(** Neither an infinity nor a NaN. *)
Definition finite (t : float) : bool :=
  match Prim2SF t with
  | S754_zero _ => true
  | S754_finite _ _ _ => true
  | _ => false
  end.

(** [int(t)]: truncation towards zero; [ValueError] on a NaN and
    [OverflowError] on an infinity. *)
Definition int_of_float (t : float) : ending Z :=
  match Prim2SF t with
  | S754_zero _ => Value 0%Z
  | S754_finite s m e => Value (cond_Zopp s (Z.shiftl (Zpos m) e))
  | S754_nan =>
      Raise (OtherException
               (list_ascii_of_string "cannot convert float NaN to integer"))
  | S754_infinity _ =>
      Raise (OtherException
               (list_ascii_of_string "cannot convert float infinity to integer"))
  end.

Section ExecutionWrapper.

(** [time.time()], and the engine: [Value report] when the call returned
    and [str(result)] gave [report], [Raise e] when it raised the instance
    [e] of [Exception], [Escape name] when it raised an exception of class
    [name] that is not one. *)
Variable env : Type.
Variable time_time : env -> float * env.
Variable crew_kickoff : env -> ending string * env.
Variable crew_kickoff_async : env -> ending string * env.

Definition execute (w : env) : ending CrewExecutionResult * env :=
  let (now, w) := time_time w in
  match int_of_float now with
  | Raise e => (Raise e, w)
  | Escape name => (Escape name, w)
  | Value seconds =>
      let execution_id := ("exec_" ++ string_of_Z seconds)%string in
      let (start_time, w) := time_time w in
      let (result, w) := crew_kickoff w in
      match result with
      | Value report =>
          let (now, w) := time_time w in
          let execution_time := (now - start_time)%float in
          (Value {| execution_id := execution_id;
                    status := "success";
                    report := report;
                    error := None;
                    execution_time_seconds := execution_time |}, w)
      | Raise e =>
          let (now, w) := time_time w in
          let execution_time := (now - start_time)%float in
          let error_msg :=
            ("Crew execution failed: " ++ string_of_list_ascii (str_of e))%string in
          (Value {| execution_id := execution_id;
                    status := "failure";
                    report := "";
                    error := Some error_msg;
                    execution_time_seconds := execution_time |}, w)
      | Escape name => (Escape name, w)
      end
  end.

Definition execute_async (w : env) : ending CrewExecutionResult * env :=
  let (now, w) := time_time w in
  match int_of_float now with
  | Raise e => (Raise e, w)
  | Escape name => (Escape name, w)
  | Value seconds =>
      let execution_id := ("exec_" ++ string_of_Z seconds)%string in
      let (start_time, w) := time_time w in
      let (result, w) := crew_kickoff_async w in
      match result with
      | Value report =>
          let (now, w) := time_time w in
          let execution_time := (now - start_time)%float in
          (Value {| execution_id := execution_id;
                    status := "success";
                    report := report;
                    error := None;
                    execution_time_seconds := execution_time |}, w)
      | Raise e =>
          let (now, w) := time_time w in
          let execution_time := (now - start_time)%float in
          let error_msg :=
            ("Async crew execution failed: "
             ++ string_of_list_ascii (str_of e))%string in
          (Value {| execution_id := execution_id;
                    status := "failure";
                    report := "";
                    error := Some error_msg;
                    execution_time_seconds := execution_time |}, w)
      | Escape name => (Escape name, w)
      end
  end.

End ExecutionWrapper.

Arguments execute {env} time_time crew_kickoff w.
Arguments execute_async {env} time_time crew_kickoff_async w.

(** *** [telegram_notifier.py] and the job of [scheduler.py] *)

Section Notifier.

(** Everything outside the process in one state: the endpoint, the event
    loop, the clocks and the engine. *)
Variable outside : Type.
Variable bot_send_message : outside -> send_request -> outside * ending unit.
Variable bot_get_me : outside -> outside * ending str.

(** [await asyncio.sleep(seconds)]: it returns, or the wait is interrupted
    by an exception of the given class. *)
Variable asyncio_sleep : outside -> nat -> outside * option str.

(** [asyncio.get_event_loop().time()] *)
Variable loop_time : outside -> float.

Variable time_time : outside -> float * outside.
Variable crew_kickoff_async : outside -> ending string * outside.

Variable chat_id : str.
Variable warning_sign : str.
Variable check_mark : str.

(** The header f-string of [send_report] for an execution time and a
    reading of the event loop's clock; the formatting of floats is not
    modelled. *)
Variable format_header : float -> float -> str.

Definition P (A : Type) : Type := world outside -> world outside * ending A.

Definition ret {A} (a : A) : P A := fun w => (w, Value a).

Definition raise {A} (e : exception) : P A := fun w => (w, Raise e).

Definition bind {A B} (m : P A) (k : A -> P B) : P B :=
  fun w =>
    match m w with
    | (w', Value a) => k a w'
    | (w', Raise e) => (w', Raise e)
    | (w', Escape name) => (w', Escape name)
    end.

(** [try: body / except <class> as e: handler e], for the classes
    [TelegramError] and [Exception]: neither catches an [Escape]. *)
Definition try_except {A} (body : P A) (catches : exception -> bool)
           (handler : exception -> P A) : P A :=
  fun w =>
    match body w with
    | (w', Value a) => (w', Value a)
    | (w', Raise e) => if catches e then handler e w' else (w', Raise e)
    | (w', Escape name) => (w', Escape name)
    end.

Definition await_send (r : send_request) : P unit :=
  fun w =>
    let (o, answer) := bot_send_message (w_bot w) r in
    ({| w_bot := o; w_trace := w_trace w ++ [Send r] |}, answer).

Definition await_sleep (seconds : nat) : P unit :=
  fun w =>
    let (o, interrupt) := asyncio_sleep (w_bot w) seconds in
    ({| w_bot := o; w_trace := w_trace w ++ [Sleep seconds] |},
     match interrupt with
     | None => Value tt
     | Some name => Escape name
     end).

Definition deliver_chunk (parse_mode : option str) (disable_preview : bool)
           (n i : nat) (chunk : str) : P unit :=
  try_except
    (bind (await_send (request chat_id chunk parse_mode disable_preview)) (fun _ =>
       if (Z.of_nat i <? Z.of_nat n - 1)%Z then await_sleep 1 else ret tt))
    is_TelegramError
    (fun e =>
       if is_parse_error e
       then await_send (request chat_id chunk None disable_preview)
       else raise e).

Fixpoint deliver (parse_mode : option str) (disable_preview : bool)
         (n : nat) (ichunks : list (nat * str)) : P unit :=
  match ichunks with
  | [] => ret tt
  | (i, chunk) :: rest =>
      bind (deliver_chunk parse_mode disable_preview n i chunk) (fun _ =>
        deliver parse_mode disable_preview n rest)
  end.

Definition send_message (message : str) (parse_mode : option str)
           (disable_preview : bool) : P bool :=
  try_except
    (let chunks := _split_message message in
     bind (deliver parse_mode disable_preview (length chunks)
                   (enumerate_from 0 chunks))
          (fun _ => ret true))
    (fun _ => true)
    (fun _ => ret false).

Definition send_report (report : str) (execution_time : float) : P bool :=
  fun w =>
    let header := format_header execution_time (loop_time (w_bot w)) in
    let full_message := header ++ report in
    send_message full_message MARKDOWN true w.

Definition send_error (error_message : str) : P bool :=
  let message := error_text warning_sign in
  send_message message MARKDOWN true.

Definition await_get_me : P str :=
  fun w =>
    let (o, me) := bot_get_me (w_bot w) in
    ({| w_bot := o; w_trace := w_trace w |}, me).

Definition test_connection : P bool :=
  try_except
    (bind await_get_me (fun me =>
     bind (send_message (connection_text check_mark) MARKDOWN true)
          (fun _ => ret true)))
    (fun _ => true)
    (fun _ => ret false).

(** [await self.crew.execute_async()] *)
Definition await_execute_async : P CrewExecutionResult :=
  fun w =>
    let (result, o) := execute_async time_time crew_kickoff_async (w_bot w) in
    ({| w_bot := o; w_trace := w_trace w |}, result).

Definition execute_research : P unit :=
  try_except
    (bind await_execute_async (fun result =>
       if String.eqb (status result) "success" then
         bind (send_report (list_ascii_of_string (report result))
                           (execution_time_seconds result))
              (fun _ => ret tt)
       else
         bind (send_error (list_ascii_of_string (error_or_unknown (error result))))
              (fun _ => ret tt)))
    (fun _ => true)
    (fun e =>
       let error_msg :=
         list_ascii_of_string "Scheduler execution error: " ++ str_of e in
       bind (send_error error_msg) (fun _ => ret tt)).

End Notifier.

Arguments ret {outside A} a w.
Arguments raise {outside A} e w.
Arguments bind {outside A B} m k w.
Arguments try_except {outside A} body catches handler w.
Arguments await_send {outside} bot_send_message r w.
Arguments await_sleep {outside} asyncio_sleep seconds w.
Arguments deliver_chunk {outside} bot_send_message asyncio_sleep chat_id parse_mode disable_preview n i chunk w.
Arguments deliver {outside} bot_send_message asyncio_sleep chat_id parse_mode disable_preview n ichunks w.
Arguments send_message {outside} bot_send_message asyncio_sleep chat_id message parse_mode disable_preview w.
Arguments send_report {outside} bot_send_message asyncio_sleep loop_time chat_id format_header report execution_time w.
Arguments send_error {outside} bot_send_message asyncio_sleep chat_id warning_sign error_message w.
Arguments await_get_me {outside} bot_get_me w.
Arguments test_connection {outside} bot_send_message bot_get_me asyncio_sleep chat_id check_mark w.
Arguments await_execute_async {outside} time_time crew_kickoff_async w.
Arguments execute_research {outside} bot_send_message asyncio_sleep loop_time time_time crew_kickoff_async chat_id warning_sign format_header w.

End Full.

(** An endpoint of the first model seen as one of [Full]: it may refuse,
    it never interrupts. *)
Definition answer_of (a : option exception) : Full.ending unit :=
  match a with
  | None => Full.Value tt
  | Some e => Full.Raise e
  end.

Definition uninterrupted {bot : Type}
           (send : bot -> send_request -> bot * option exception)
           (b : bot) (r : send_request) : bot * Full.ending unit :=
  let (b', a) := send b r in (b', answer_of a).

Definition sound_sleep {bot : Type} (b : bot) (_ : nat) : bot * option str :=
  (b, None).

(** A result of the first model seen as an ending of [Full]. *)
Definition ending_of {A : Type} (r : exception + A) : Full.ending A :=
  match r with
  | inr a => Full.Value a
  | inl e => Full.Raise e
  end.

(** *** Vocabulary of the further properties *)

(** A string without its line breaks. *)
Definition strip_newlines (s : str) : str :=
  filter (fun c => negb (Ascii.eqb c newline)) s.

(** All the text a state of the line loop holds. *)
Definition text_of (st : list str * str) : str := concat (fst st) ++ snd st.

(** The texts handed to the endpoint, in order. *)
Definition sent_texts (evs : list event) : list str :=
  flat_map (fun ev => match ev with Send r => [req_text r] | Sleep _ => [] end) evs.

(** What [send_message] may do for a message with these chunks. *)
Definition allowed_event (chat_id : str) (parse_mode : option str)
           (disable_preview : bool) (chunks : list str) (ev : event) : Prop :=
  match ev with
  | Sleep seconds => seconds = 1
  | Send r =>
      req_chat_id r = chat_id /\
      In (req_text r) chunks /\
      (req_parse_mode r = parse_mode \/ req_parse_mode r = None) /\
      req_disable_web_page_preview r = disable_preview
  end.

(** [x] put between every two neighbours of a list. *)
Fixpoint intersperse {A : Type} (x : A) (l : list A) : list A :=
  match l with
  | [] => []
  | [a] => [a]
  | a :: l' => a :: x :: intersperse x l'
  end.

(** An endpoint without state that accepts whatever it is sent. *)
Definition accept_all (_ : unit) (_ : send_request) : unit * option exception :=
  (tt, None).

(** An environment in which the four required variables are set, and one
    in which nothing is. *)
Definition configured : environ :=
  fun var =>
    if existsb (str_eqb var) required_vars
    then Some (list_ascii_of_string "secret")
    else None.

Definition unconfigured : environ := fun _ => None.

(** A concrete outside for runs of [Full]: the clock readings still to
    come, the answer of the engine, and the answers of the endpoint, which
    accepts everything once they are used up; no wait is interrupted. *)
Record site : Type := {
  site_readings : list float;
  site_engine : Full.ending string;
  site_answers : list (Full.ending unit)
}.

Definition site_time (o : site) : float * site :=
  match site_readings o with
  | [] => (0%float, o)
  | t :: ts =>
      (t, {| site_readings := ts;
             site_engine := site_engine o;
             site_answers := site_answers o |})
  end.

Definition site_kickoff (o : site) : Full.ending string * site :=
  (site_engine o, o).

Definition site_send (o : site) (_ : send_request) : site * Full.ending unit :=
  match site_answers o with
  | [] => (o, Full.Value tt)
  | a :: answers =>
      ({| site_readings := site_readings o;
          site_engine := site_engine o;
          site_answers := answers |}, a)
  end.

Definition site_sleep (o : site) (_ : nat) : site * option str := (o, None).

Definition site_loop_time (_ : site) : float := 0%float.

Definition site_get_me (o : site) : site * Full.ending str :=
  (o, Full.Value (list_ascii_of_string "research_bot")).

Definition sample_header (execution_time now : float) : str :=
  list_ascii_of_string "Report " ++ [newline].

Definition sample_sign : str := list_ascii_of_string "!".

Definition boom : exception := OtherException (list_ascii_of_string "boom").

Definition cancelled : str := list_ascii_of_string "CancelledError".

(** The engine raises an [Exception] after 7.5 seconds. *)
Definition engine_fails : site :=
  {| site_readings := [100; 100; 107.5]%float;
     site_engine := Full.Raise boom;
     site_answers := [] |}.

(** The wall clock is set back by 50 seconds while the engine runs. *)
Definition clock_goes_back : site :=
  {| site_readings := [100; 100; 50]%float;
     site_engine := Full.Value "report"%string;
     site_answers := [] |}.

(** Two readings whose exact difference is not a binary64 number. *)
Definition clock_far_apart : site :=
  {| site_readings := [100; 1; 1e16]%float;
     site_engine := Full.Value "report"%string;
     site_answers := [] |}.

(** The task is cancelled while the engine runs. *)
Definition engine_cancelled : site :=
  {| site_readings := [100; 100; 107.5]%float;
     site_engine := Full.Escape cancelled;
     site_answers := [] |}.

(** The endpoint refuses the test message with a time-out. *)
Definition endpoint_down : site :=
  {| site_readings := [];
     site_engine := Full.Value "report"%string;
     site_answers := [Full.Raise timed_out] |}.

(** Spec-level floats that are not NaN and carry no minus sign, and those
    that are neither NaN nor infinite. *)
Definition nonneg_sf (x : spec_float) : bool :=
  match x with
  | S754_zero _ => true
  | S754_infinity s => negb s
  | S754_finite s _ _ => negb s
  | S754_nan => false
  end.

Definition finite_sf (x : spec_float) : bool :=
  match x with
  | S754_zero _ => true
  | S754_finite _ _ _ => true
  | _ => false
  end.

(** * Properties of the chunking *)

Lemma MAX_MESSAGE_LENGTH_value : MAX_MESSAGE_LENGTH = 4096.
Proof. reflexivity. Qed.

Lemma headroom_value : MAX_MESSAGE_LENGTH - 100 = 3996.
Proof. reflexivity. Qed.

Lemma truthy_true (s : str) : truthy s = true <-> s <> [].
Proof. destruct s; simpl; split; congruence. Qed.

Lemma truthy_false (s : str) : truthy s = false <-> s = [].
Proof. destruct s; simpl; split; congruence. Qed.

Lemma slice_length (s : str) (i j : nat) : length (slice s i j) <= j - i.
Proof. unfold slice. rewrite length_firstn. apply Nat.le_min_l. Qed.

(** *** [range] and the hard split *)

Lemma ceil_div_0 (d : nat) : 0 < d -> ceil_div 0 d = 0.
Proof. intros Hd. unfold ceil_div. apply Nat.div_small. lia. Qed.

Lemma ceil_div_step (n d : nat) :
  0 < d -> 0 < n -> ceil_div n d = S (ceil_div (n - d) d).
Proof.
  intros Hd Hn. unfold ceil_div.
  destruct (le_lt_dec n d) as [Hle | Hlt].
  - replace (n - d) with 0 by lia.
    rewrite (Nat.div_small (0 + d - 1) d) by lia.
    symmetry. apply Nat.div_unique with (r := n - 1); lia.
  - replace (n + d - 1) with ((n - d + d - 1) + 1 * d) by lia.
    rewrite Nat.div_add by lia. lia.
Qed.

Lemma range_from_length (fuel start stop step : nat) :
  0 < step -> stop - start <= fuel ->
  length (range_from fuel start stop step) = ceil_div (stop - start) step.
Proof.
  intros Hstep. revert start.
  induction fuel as [| fuel IH]; intros start Hfuel; cbn [range_from].
  - replace (stop - start) with 0 by lia. now rewrite ceil_div_0.
  - destruct (start <? stop) eqn:Hlt.
    + apply Nat.ltb_lt in Hlt. cbn [length].
      rewrite IH by lia. rewrite (ceil_div_step (stop - start)) by lia.
      do 2 f_equal. lia.
    + apply Nat.ltb_ge in Hlt.
      replace (stop - start) with 0 by lia. now rewrite ceil_div_0.
Qed.

Lemma range_from_below (fuel start stop step : nat) :
  Forall (fun i => i < stop) (range_from fuel start stop step).
Proof.
  revert start. induction fuel as [| fuel IH]; intros start; cbn [range_from].
  - constructor.
  - destruct (start <? stop) eqn:Hlt; constructor.
    + now apply Nat.ltb_lt.
    + apply IH.
Qed.

Lemma slices_concat (line : str) (step fuel start : nat) :
  0 < step -> length line - start <= fuel ->
  concat (map (fun i => slice line i (i + step))
              (range_from fuel start (length line) step))
  = skipn start line.
Proof.
  intros Hstep. revert start.
  induction fuel as [| fuel IH]; intros start Hfuel; cbn [range_from map concat].
  - symmetry. apply skipn_all2. lia.
  - destruct (start <? length line) eqn:Hlt; cbn [map concat].
    + apply Nat.ltb_lt in Hlt. rewrite IH by lia.
      unfold slice. replace (start + step - start) with step by lia.
      rewrite (Nat.add_comm start step), <- skipn_skipn.
      apply firstn_skipn.
    + apply Nat.ltb_ge in Hlt. symmetry. now apply skipn_all2.
Qed.

Lemma hard_split_slices (line : str) :
  hard_split line
  = map (fun i => slice line i (i + 3996)) (py_range 0 (length line) 3996).
Proof.
  unfold hard_split. rewrite headroom_value. apply map_ext. intros i.
  f_equal. unfold MAX_MESSAGE_LENGTH. lia.
Qed.

Lemma hard_split_concat (line : str) : concat (hard_split line) = line.
Proof.
  rewrite hard_split_slices. unfold py_range.
  rewrite slices_concat by lia. reflexivity.
Qed.

Lemma hard_split_length (line : str) :
  length (hard_split line) = ceil_div (length line) 3996.
Proof.
  rewrite hard_split_slices, length_map. unfold py_range.
  rewrite range_from_length by lia. f_equal. lia.
Qed.

Lemma hard_split_bound (line : str) :
  Forall (fun piece => length piece <= 3996) (hard_split line).
Proof.
  rewrite hard_split_slices. apply Forall_map, Forall_forall. intros i _.
  pose proof (slice_length line i (i + 3996)). lia.
Qed.

Lemma hard_split_nonempty (line : str) :
  Forall (fun piece => piece <> []) (hard_split line).
Proof.
  rewrite hard_split_slices. apply Forall_map. unfold py_range.
  eapply Forall_impl; [| apply range_from_below].
  intros i Hi Hnil. apply (f_equal (@length ascii)) in Hnil.
  unfold slice in Hnil. rewrite length_firstn, length_skipn in Hnil.
  cbn beta in Hi. cbn [length] in Hnil. lia.
Qed.

Lemma fold_left_append (A B : Type) (f : B -> A) (l : list B) (acc : list A) :
  fold_left (fun acc i => acc ++ [f i]) l acc = acc ++ map f l.
Proof.
  revert acc. induction l as [| i l IH]; intros acc; cbn [fold_left map].
  - now rewrite app_nil_r.
  - rewrite IH, <- app_assoc. reflexivity.
Qed.

Lemma hard_split_into_eq (chunks : list str) (line : str) :
  hard_split_into chunks line = chunks ++ hard_split line.
Proof. unfold hard_split_into, hard_split. apply fold_left_append. Qed.

(** *** The line loop *)

Lemma split_lines_member_length (message line : str) :
  In line (split_lines message) -> length line <= length message.
Proof.
  revert line. induction message as [| c message IH]; intros line Hin.
  - destruct Hin as [<- | []]. reflexivity.
  - cbn [split_lines] in Hin. destruct (Ascii.eqb c newline).
    + destruct Hin as [<- | Hin]; cbn [length]; [lia |].
      specialize (IH _ Hin). lia.
    + destruct (split_lines message) as [| l ls] eqn:Hs.
      * destruct Hin as [<- | []]. cbn [length]. lia.
      * destruct Hin as [<- | Hin]; cbn [length].
        -- specialize (IH l (or_introl eq_refl)). lia.
        -- specialize (IH line (or_intror Hin)). lia.
Qed.

Lemma split_lines_cons (message : str) :
  exists line lines, split_lines message = line :: lines.
Proof.
  destruct message as [| c message]; cbn [split_lines]; [eauto |].
  destruct (Ascii.eqb c newline); [eauto |].
  destruct (split_lines message); eauto.
Qed.

Lemma join_lines_cons (a b : str) (rest : list str) :
  join_lines (a :: b :: rest) = a ++ newline :: join_lines (b :: rest).
Proof. reflexivity. Qed.

Lemma join_split_lines (message : str) : join_lines (split_lines message) = message.
Proof.
  induction message as [| c message IH]; [reflexivity |].
  cbn [split_lines].
  destruct (split_lines_cons message) as (l & ls & Hs). rewrite Hs in *.
  destruct (Ascii.eqb c newline) eqn:Hc.
  - apply Ascii.eqb_eq in Hc. subst c.
    rewrite join_lines_cons, IH. reflexivity.
  - destruct ls as [| l' ls].
    + cbn [join_lines] in *. now rewrite IH.
    + rewrite join_lines_cons in *. cbn [app]. now rewrite IH.
Qed.

Lemma split_step_fits (st : list str * str) (line : str) :
  fits st -> fits (split_step st line).
Proof.
  destruct st as [chunks cur]. unfold fits, split_step. cbn [fst snd].
  intros [Hchunks Hcur].
  destruct (MAX_MESSAGE_LENGTH <? length line) eqn:Hlong.
  - cbn [fst snd length]. split; [| lia].
    rewrite hard_split_into_eq. apply Forall_app. split.
    + destruct (truthy cur); [apply Forall_app; split |]; auto.
    + eapply Forall_impl; [| apply hard_split_bound].
      cbn beta. intros piece Hp. unfold MAX_MESSAGE_LENGTH. lia.
  - apply Nat.ltb_ge in Hlong.
    destruct (MAX_MESSAGE_LENGTH <? length cur + length line + 1) eqn:Hover.
    + cbn [fst snd]. split; [apply Forall_app; split |]; auto.
    + apply Nat.ltb_ge in Hover. cbn [fst snd]. split; [assumption |].
      rewrite !length_app. destruct (truthy cur) eqn:Ht; cbn [length]; [lia |].
      apply truthy_false in Ht. subst cur. cbn [length]. lia.
Qed.

Lemma fold_split_step_fits (lines : list str) (st : list str * str) :
  fits st -> fits (fold_left split_step lines st).
Proof.
  revert st. induction lines as [| line lines IH]; intros st Hst; cbn [fold_left].
  - assumption.
  - apply IH, split_step_fits, Hst.
Qed.

Lemma split_step_extends (st : list str * str) (line : str) :
  exists added, fst (split_step st line) = fst st ++ added.
Proof.
  destruct st as [chunks cur]. unfold split_step. cbn [fst].
  destruct (MAX_MESSAGE_LENGTH <? length line).
  - cbn [fst]. rewrite hard_split_into_eq.
    destruct (truthy cur); eexists; [rewrite <- app_assoc |]; reflexivity.
  - destruct (MAX_MESSAGE_LENGTH <? length cur + length line + 1); cbn [fst].
    + eexists; reflexivity.
    + exists []. now rewrite app_nil_r.
Qed.

Lemma fold_split_step_extends (lines : list str) (st : list str * str) :
  exists added, fst (fold_left split_step lines st) = fst st ++ added.
Proof.
  revert st. induction lines as [| line lines IH]; intros st; cbn [fold_left].
  - exists []. now rewrite app_nil_r.
  - destruct (IH (split_step st line)) as [more Hmore].
    destruct (split_step_extends st line) as [added Hadded].
    exists (added ++ more). rewrite Hmore, Hadded, app_assoc. reflexivity.
Qed.

(** After an over-long line the finished chunks end with its pieces and
    the chunk under construction is empty. *)
Lemma split_step_long_line (st : list str * str) (line : str) :
  MAX_MESSAGE_LENGTH < length line ->
  exists front, split_step st line = (front ++ hard_split line, []).
Proof.
  intros Hlong. destruct st as [chunks cur]. unfold split_step.
  apply Nat.ltb_lt in Hlong. rewrite Hlong, hard_split_into_eq.
  eexists. reflexivity.
Qed.

(** C2. Every chunk returned by [_split_message] has length at most
    [MAX_MESSAGE_LENGTH] = 4096, whatever the message. *)
Theorem split_message_chunks_fit (message : str) :
  Forall (fun chunk => length chunk <= 4096) (_split_message message).
Proof.
  rewrite <- MAX_MESSAGE_LENGTH_value. unfold _split_message.
  destruct (length message <=? MAX_MESSAGE_LENGTH) eqn:Hshort.
  - apply Nat.leb_le in Hshort. constructor; [exact Hshort | constructor].
  - assert (Hfit : fits (fold_left split_step (split_lines message) ([], []))).
    { apply fold_split_step_fits. split; cbn [fst snd length]; [constructor | lia]. }
    destruct (fold_left split_step (split_lines message) ([], [])) as [chunks cur].
    destruct Hfit as [Hchunks Hcur]. cbn [fst snd] in *.
    destruct (truthy cur); [apply Forall_app; split |]; auto.
Qed.

(** C4. A message of length at most [MAX_MESSAGE_LENGTH] = 4096 comes back
    as exactly one chunk, the message itself. *)
Theorem short_message_single_chunk (message : str) :
  length message <= 4096 -> _split_message message = [message].
Proof.
  intros Hshort. unfold _split_message.
  rewrite <- MAX_MESSAGE_LENGTH_value in Hshort.
  apply Nat.leb_le in Hshort. now rewrite Hshort.
Qed.

Lemma short_message_single_chunk_witness :
  _split_message short_message = [short_message].
Proof.
  apply (short_message_single_chunk short_message).
  unfold short_message. simpl. lia.
Defined.

(** C5. A line of the message that is longer than the limit is cut into
    exactly [ceil(len(line) / (limit - 100))] pieces of at most
    [limit - 100] = 3996 characters; the pieces, in order, make up the
    line, and they appear as consecutive chunks of the result. *)
Theorem long_line_hard_split (message : str) (before after : list str) (line : str) :
  split_lines message = before ++ line :: after ->
  MAX_MESSAGE_LENGTH < length line ->
  length (hard_split line) = ceil_div (length line) (MAX_MESSAGE_LENGTH - 100) /\
  Forall (fun piece => length piece <= 3996) (hard_split line) /\
  concat (hard_split line) = line /\
  exists front back, _split_message message = front ++ hard_split line ++ back.
Proof.
  intros Hlines Hlong.
  split; [rewrite headroom_value; apply hard_split_length |].
  split; [apply hard_split_bound |].
  split; [apply hard_split_concat |].
  assert (Hmsg : length line <= length message).
  { apply split_lines_member_length. rewrite Hlines.
    apply in_or_app. right. now left. }
  unfold _split_message.
  destruct (length message <=? MAX_MESSAGE_LENGTH) eqn:Hshort.
  { apply Nat.leb_le in Hshort. lia. }
  rewrite Hlines, fold_left_app. cbn [fold_left].
  destruct (split_step_long_line (fold_left split_step before ([], [])) line Hlong)
    as [front Hstep].
  rewrite Hstep.
  destruct (fold_split_step_extends after (front ++ hard_split line, []))
    as [added Hadded].
  destruct (fold_left split_step after (front ++ hard_split line, []))
    as [chunks cur].
  cbn [fst] in Hadded. subst chunks.
  destruct (truthy cur).
  - exists front, (added ++ [cur]). now rewrite <- !app_assoc.
  - exists front, added. now rewrite <- app_assoc.
Qed.

Lemma long_line_hard_split_witness :
  length (hard_split long_line) = ceil_div (length long_line) (MAX_MESSAGE_LENGTH - 100) /\
  Forall (fun piece => length piece <= 3996) (hard_split long_line) /\
  concat (hard_split long_line) = long_line /\
  exists front back, _split_message long_line = front ++ hard_split long_line ++ back.
Proof.
  apply (long_line_hard_split long_line [] []).
  - vm_compute. reflexivity.
  - unfold long_line, MAX_MESSAGE_LENGTH. rewrite repeat_length. lia.
Defined.

(** The 5000-character line: two pieces, of 3996 and 1004 characters. *)
Example split_message_long_line :
  _split_message long_line = [repeat "a"%char 3996; repeat "a"%char 1004].
Proof. vm_compute. reflexivity. Qed.

(** *** Where the line loop loses or invents chunks *)

(** A line added to an empty chunk under construction leaves no trace of
    its line break, so an empty line then vanishes altogether. *)
Lemma split_step_empty_line (chunks : list str) :
  split_step (chunks, []) [] = (chunks, []).
Proof. reflexivity. Qed.

Lemma fold_split_step_empty_lines (n : nat) (chunks : list str) :
  fold_left split_step (repeat [] n) (chunks, []) = (chunks, []).
Proof.
  induction n as [| n IH]; cbn [repeat fold_left]; [reflexivity |].
  rewrite split_step_empty_line. exact IH.
Qed.

Lemma split_lines_newlines (n : nat) :
  split_lines (repeat newline n) = repeat [] (S n).
Proof.
  induction n as [| n IH]; [reflexivity |].
  cbn [repeat split_lines]. rewrite Ascii.eqb_refl, IH. reflexivity.
Qed.

(** A message made of newlines only, longer than the limit, yields no
    chunk at all. *)
Lemma split_message_newlines (n : nat) :
  MAX_MESSAGE_LENGTH < n -> _split_message (repeat newline n) = [].
Proof.
  intros Hn. unfold _split_message. rewrite repeat_length.
  apply Nat.leb_gt in Hn. rewrite Hn.
  rewrite split_lines_newlines, fold_split_step_empty_lines. reflexivity.
Qed.

(** *** What the line loop does keep: messages without empty lines *)

Lemma glue_app (s1 s2 c1 c2 : list str) :
  length s1 = length c1 ->
  glue (s1 ++ s2) (c1 ++ c2) = glue s1 c1 ++ glue s2 c2.
Proof.
  revert c1. induction s1 as [| s s1 IH]; intros [| c c1] Hlen;
    try discriminate; [reflexivity |].
  cbn [app glue]. rewrite IH by (cbn [length] in Hlen; lia).
  now rewrite <- !app_assoc.
Qed.

Lemma glue_direct (pieces : list str) :
  glue (repeat [] (length pieces)) pieces = concat pieces.
Proof.
  induction pieces as [| p pieces IH]; [reflexivity |].
  cbn [length repeat glue concat app]. now rewrite IH.
Qed.

Lemma rejoin_glue (c : str) (seps chunks : list str) :
  length seps = length chunks ->
  rejoin (c :: chunks) seps = c ++ glue seps chunks.
Proof.
  revert c seps. induction chunks as [| c' chunks IH]; intros c seps Hlen.
  - destruct seps; [| discriminate]. cbn [rejoin glue]. now rewrite app_nil_r.
  - destruct seps as [| s seps]; [discriminate |].
    cbn [length] in Hlen.
    change (rejoin (c :: c' :: chunks) (s :: seps))
      with (c ++ s ++ rejoin (c' :: chunks) seps).
    rewrite IH by lia. reflexivity.
Qed.

Lemma glue_snoc (seps chunks : list str) (c x : str) :
  length seps = length (chunks ++ [c]) ->
  glue seps (chunks ++ [c ++ x]) = glue seps (chunks ++ [c]) ++ x.
Proof.
  revert seps. induction chunks as [| c0 chunks IH]; intros [| s seps] Hlen;
    try discriminate; cbn [app glue].
  - destruct seps; cbn [glue]; now rewrite !app_nil_r, <- !app_assoc.
  - rewrite IH by (cbn [app length] in Hlen; lia). now rewrite <- !app_assoc.
Qed.

Lemma join_lines_snoc (done : list str) (line : str) :
  join_lines (done ++ [line]) = join_lines done ++ line_break done ++ line.
Proof.
  induction done as [| l done IH]; [reflexivity |].
  destruct done as [| l' done].
  - reflexivity.
  - change (join_lines ((l :: l' :: done) ++ [line]))
      with (l ++ newline :: join_lines ((l' :: done) ++ [line])).
    rewrite IH, join_lines_cons. cbn [line_break].
    rewrite <- !app_assoc. reflexivity.
Qed.

Lemma is_separator_line_break (done : list str) : is_separator (line_break done).
Proof. destruct done; [left | right]; reflexivity. Qed.

(** New chunks behind a state that spells [done], making up the next line. *)
Lemma spells_extend (done : list str) (line : str) (old : list str)
      (seps more_seps more : list str) :
  length seps = length old ->
  Forall is_separator seps ->
  hd [] seps = [] ->
  (done = [] <-> old = []) ->
  glue seps old = join_lines done ->
  length more_seps = length more ->
  Forall is_separator more_seps ->
  (done = [] -> hd [] more_seps = []) ->
  more <> [] ->
  glue more_seps more = line_break done ++ line ->
  exists seps',
    length seps' = length (old ++ more) /\
    Forall is_separator seps' /\
    hd [] seps' = [] /\
    (done ++ [line] = [] <-> old ++ more = []) /\
    glue seps' (old ++ more) = join_lines (done ++ [line]).
Proof.
  intros Hlen Hsep Hhd Hiff Hglue Hlen' Hsep' Hhd' Hmore Hglue'.
  exists (seps ++ more_seps). repeat split.
  - rewrite !length_app. lia.
  - apply Forall_app. auto.
  - destruct seps as [| s seps]; [| exact Hhd].
    destruct old; [| discriminate]. apply Hhd', Hiff. reflexivity.
  - intros H. now apply app_eq_nil in H as [_ H].
  - intros H. apply app_eq_nil in H as [_ H]. contradiction.
  - rewrite glue_app, Hglue, Hglue', join_lines_snoc by exact Hlen. reflexivity.
Qed.

Lemma split_step_spells (done : list str) (st : list str * str) (line : str) :
  line <> [] -> spells done st -> spells (done ++ [line]) (split_step st line).
Proof.
  intros Hline. destruct st as [chunks cur].
  intros (seps & Hlen & Hsep & Hhd & Hiff & Hglue).
  assert (Htl : truthy line = true) by now apply truthy_true.
  unfold spells, split_step.
  destruct (MAX_MESSAGE_LENGTH <? length line).
  - (* an over-long line: the pieces, the first behind the line break *)
    rewrite hard_split_into_eq.
    change (chunks_of ((if truthy cur then chunks ++ [cur] else chunks)
                         ++ hard_split line, []))
      with (chunks_of (chunks, cur) ++ hard_split line).
    pose proof (hard_split_concat line) as Hcat.
    destruct (hard_split line) as [| piece pieces] eqn:Hpieces.
    { cbn [concat] in Hcat. congruence. }
    apply spells_extend
      with (seps := seps) (more_seps := line_break done :: repeat [] (length pieces));
      auto.
    + cbn [length]. now rewrite repeat_length.
    + constructor; [apply is_separator_line_break |].
      apply Forall_forall. intros s Hs. apply repeat_spec in Hs. now left.
    + intros ->. reflexivity.
    + discriminate.
    + cbn [glue]. rewrite glue_direct. cbn [concat] in Hcat. now rewrite Hcat.
  - destruct (MAX_MESSAGE_LENGTH <? length cur + length line + 1).
    + (* the chunk under construction is closed, the line opens the next *)
      unfold chunks_of in *. cbn [fst snd] in *. rewrite Htl.
      destruct (truthy cur) eqn:Hcur.
      * apply spells_extend
          with (seps := seps) (more_seps := [line_break done]); auto.
        -- constructor; [apply is_separator_line_break | constructor].
        -- intros ->. reflexivity.
        -- discriminate.
        -- cbn [glue]. now rewrite app_nil_r.
      * apply truthy_false in Hcur. subst cur.
        rewrite <- app_assoc. cbn [app].
        apply spells_extend
          with (seps := seps) (more_seps := [[]; line_break done]); auto.
        -- constructor; [now left |].
           constructor; [apply is_separator_line_break | constructor].
        -- discriminate.
        -- cbn [glue app]. now rewrite app_nil_r.
    + (* the line joins the chunk under construction *)
      unfold chunks_of in *. cbn [fst snd] in *.
      destruct (truthy cur) eqn:Hcur.
      * assert (Ht : truthy (cur ++ [newline] ++ line) = true).
        { apply truthy_true. intros H. apply app_eq_nil in H as [_ H]. discriminate. }
        rewrite Ht. exists seps. repeat split; auto.
        -- rewrite Hlen, !length_app. reflexivity.
        -- intros H. now apply app_eq_nil in H as [_ H].
        -- intros H. apply app_eq_nil in H as [_ H]. discriminate.
        -- rewrite glue_snoc, Hglue, join_lines_snoc by exact Hlen.
           destruct done as [| l done]; [| reflexivity].
           destruct Hiff as [Hiff _]. specialize (Hiff eq_refl).
           apply app_eq_nil in Hiff as [_ Hiff]. discriminate.
      * apply truthy_false in Hcur. subst cur. cbn [app]. rewrite Htl.
        apply spells_extend
          with (seps := seps) (more_seps := [line_break done]); auto.
        -- constructor; [apply is_separator_line_break | constructor].
        -- intros ->. reflexivity.
        -- discriminate.
        -- cbn [glue]. now rewrite app_nil_r.
Qed.

Lemma fold_split_step_spells (lines done : list str) (st : list str * str) :
  Forall (fun line => line <> []) lines ->
  spells done st -> spells (done ++ lines) (fold_left split_step lines st).
Proof.
  revert done st. induction lines as [| line lines IH]; intros done st Hlines Hst.
  - now rewrite app_nil_r.
  - inversion Hlines as [| ? ? Hline Hrest]; subst. cbn [fold_left].
    replace (done ++ line :: lines) with ((done ++ [line]) ++ lines)
      by now rewrite <- app_assoc.
    apply IH; [exact Hrest |]. now apply split_step_spells.
Qed.

(** A message none of whose lines is empty is given back by its chunks:
    joined by a newline where a line ended, directly elsewhere. *)
Lemma split_message_reconstructs (message : str) :
  Forall (fun line => line <> []) (split_lines message) ->
  reconstructs message (_split_message message).
Proof.
  intros Hlines. unfold _split_message.
  destruct (length message <=? MAX_MESSAGE_LENGTH).
  { exists []. split; [constructor | reflexivity]. }
  assert (Hstart : spells [] ([], [])).
  { exists []. repeat split; auto; constructor. }
  pose proof (fold_split_step_spells _ _ _ Hlines Hstart) as Hend.
  cbn [app] in Hend.
  destruct (fold_left split_step (split_lines message) ([], [])) as [chunks cur].
  destruct Hend as (seps & Hlen & Hsep & Hhd & _ & Hglue).
  rewrite join_split_lines in Hglue.
  unfold chunks_of in *. cbn [fst snd] in *.
  destruct (if truthy cur then chunks ++ [cur] else chunks) as [| c rest].
  - exists []. split; [constructor |].
    destruct seps; [| discriminate]. exact Hglue.
  - destruct seps as [| s seps]; [discriminate |].
    cbn [hd] in Hhd. subst s. cbn [length] in Hlen.
    exists seps. split; [now inversion Hsep |].
    rewrite rejoin_glue by lia. exact Hglue.
Qed.

(** C1 (the code departs from it). On the message of 4097 newlines
    [_split_message] returns no chunk, so no way of re-joining the chunks,
    with or without newlines in between, gives the message back: all of
    its 4097 characters are dropped. *)
Theorem split_message_drops_blank_message :
  _split_message blank_message = [] /\
  ~ reconstructs blank_message (_split_message blank_message).
Proof.
  assert (Hnone : _split_message blank_message = []).
  { apply split_message_newlines. unfold MAX_MESSAGE_LENGTH. lia. }
  split; [exact Hnone |].
  rewrite Hnone. intros (seps & _ & Hjoin).
  cbn [rejoin] in Hjoin. apply (f_equal (@length ascii)) in Hjoin.
  unfold blank_message in Hjoin. rewrite repeat_length in Hjoin.
  cbn [length] in Hjoin. lia.
Qed.

(** Whenever the first line of an over-long message has exactly
    [MAX_MESSAGE_LENGTH] characters, the first chunk is the empty string. *)
Lemma split_message_full_first_line (message line : str) (lines : list str) :
  MAX_MESSAGE_LENGTH < length message ->
  split_lines message = line :: lines ->
  length line = MAX_MESSAGE_LENGTH ->
  exists chunks, _split_message message = [] :: chunks.
Proof.
  intros Hlong Hlines Hfull. unfold _split_message.
  apply Nat.leb_gt in Hlong. rewrite Hlong, Hlines. cbn [fold_left].
  assert (Hstep : split_step ([], []) line = ([[]], line)).
  { unfold split_step. cbn [length Nat.add]. rewrite Hfull.
    rewrite Nat.ltb_irrefl.
    replace (MAX_MESSAGE_LENGTH <? MAX_MESSAGE_LENGTH + 1) with true; [reflexivity |].
    symmetry. apply Nat.ltb_lt. lia. }
  rewrite Hstep.
  destruct (fold_split_step_extends lines ([[]], line)) as [added Hadded].
  destruct (fold_left split_step lines ([[]], line)) as [chunks cur].
  cbn [fst] in Hadded. subst chunks.
  destruct (truthy cur); eexists; reflexivity.
Qed.

(** C3 (the code departs from it). When the first line has exactly 4096
    characters the chunk under construction is still empty when the line
    is found not to fit after it, and that empty string is appended as a
    chunk of its own. *)
Theorem split_message_emits_empty_chunk :
  _split_message full_line_message = [[]; full_line; ["b"%char]] /\
  In [] (_split_message full_line_message).
Proof.
  assert (Hrun : _split_message full_line_message = [[]; full_line; ["b"%char]]).
  { vm_compute. reflexivity. }
  split; [exact Hrun |]. rewrite Hrun. now left.
Qed.

(** * Properties of the delivery loop *)

Section DeliveryFacts.

Variable bot : Type.
Variable send : bot -> send_request -> bot * option exception.
Variable chat_id : str.
Variable parse_mode : option str.
Variable disable_preview : bool.

Lemma enumerate_from_app (i : nat) (pre post : list str) :
  enumerate_from i (pre ++ post)
  = enumerate_from i pre ++ enumerate_from (i + length pre) post.
Proof.
  revert i. induction pre as [| c pre IH]; intros i; cbn [app enumerate_from length].
  - now rewrite Nat.add_0_r.
  - rewrite IH. do 3 f_equal. lia.
Qed.

Lemma deliver_app (n : nat) (l1 l2 : list (nat * str)) (w : world bot) :
  deliver send chat_id parse_mode disable_preview n (l1 ++ l2) w
  = bind (deliver send chat_id parse_mode disable_preview n l1)
         (fun _ => deliver send chat_id parse_mode disable_preview n l2) w.
Proof.
  revert w. induction l1 as [| [i c] l1 IH]; intros w; cbn [app deliver].
  - reflexivity.
  - unfold bind in *.
    destruct (deliver_chunk send chat_id parse_mode disable_preview n i c w)
      as [w1 [e | []]]; [reflexivity |].
    apply IH.
Qed.

(** One chunk, case by case on what the endpoint answers. *)
Lemma deliver_chunk_eq (n i : nat) (chunk : str) (w : world bot) :
  deliver_chunk send chat_id parse_mode disable_preview n i chunk w
  = let (b1, answer) := send (w_bot w) (request chat_id chunk parse_mode disable_preview) in
    let w1 := {| w_bot := b1; w_trace := w_trace w ++ [Send (request chat_id chunk parse_mode disable_preview)] |} in
    match answer with
    | None =>
        if (Z.of_nat i <? Z.of_nat n - 1)%Z then (emit (Sleep 1) w1, inr tt)
        else (w1, inr tt)
    | Some e =>
        if is_TelegramError e && is_parse_error e
        then await_send send (request chat_id chunk None disable_preview) w1
        else (w1, inl e)
    end.
Proof.
  unfold deliver_chunk, try_except, bind, await_send at 1.
  destruct (send (w_bot w) (request chat_id chunk parse_mode disable_preview))
    as [b1 [e |]].
  - destruct (is_TelegramError e); cbn [andb]; [| reflexivity].
    destruct (is_parse_error e); reflexivity.
  - destruct (Z.of_nat i <? Z.of_nat n - 1)%Z; reflexivity.
Qed.

Lemma accepted_cons_inv (b : bot) (chunk : str) (rest : list str) :
  accepted_all send chat_id parse_mode disable_preview b (chunk :: rest) ->
  (exists b',
      send b (request chat_id chunk parse_mode disable_preview) = (b', None) /\
      accepted_all send chat_id parse_mode disable_preview b' rest) \/
  (exists b1 b2 e,
      send b (request chat_id chunk parse_mode disable_preview) = (b1, Some e) /\
      is_TelegramError e = true /\ is_parse_error e = true /\
      send b1 (request chat_id chunk None disable_preview) = (b2, None) /\
      accepted_all send chat_id parse_mode disable_preview b2 rest).
Proof.
  intros Hacc.
  inversion Hacc as [| ? b' ? ? Hfirst Hrest
                     | ? b1 b2 e ? ? Hfirst Hte Hpe Hplain Hrest]; subst.
  - left. exists b'. auto.
  - right. exists b1, b2, e. auto.
Qed.

Lemma deliver_accepted_iff (n i : nat) (chunks : list str) (w : world bot) :
  snd (deliver send chat_id parse_mode disable_preview n (enumerate_from i chunks) w)
  = inr tt
  <-> accepted_all send chat_id parse_mode disable_preview (w_bot w) chunks.
Proof.
  revert i w. induction chunks as [| chunk rest IH]; intros i w;
    cbn [enumerate_from deliver].
  - split; [constructor | reflexivity].
  - unfold bind. rewrite deliver_chunk_eq.
    destruct (send (w_bot w) (request chat_id chunk parse_mode disable_preview)) as [b1 [e |]] eqn:Hfirst.
    + destruct (is_TelegramError e && is_parse_error e) eqn:Hcatch.
      * apply andb_prop in Hcatch as [Hte Hpe].
        unfold await_send. cbn [w_bot w_trace].
        destruct (send b1 (request chat_id chunk None disable_preview)) as [b2 [e2 |]] eqn:Hplain.
        -- cbn [snd]. split; [discriminate |].
           intros Hacc. apply accepted_cons_inv in Hacc.
           destruct Hacc as [(b' & Hf & _) | (c1 & c2 & e' & Hf & _ & _ & Hp & _)];
             congruence.
        -- rewrite IH. cbn [w_bot]. split.
           ++ intros Hrest. eapply accepted_fallback; eauto.
           ++ intros Hacc. apply accepted_cons_inv in Hacc.
              destruct Hacc as [(b' & Hf & _) | (c1 & c2 & e' & Hf & _ & _ & Hp & Hr)];
                [congruence |].
              assert (c1 = b1) by congruence. subst c1.
              assert (c2 = b2) by congruence. subst c2. exact Hr.
      * cbn [snd]. split; [discriminate |].
        intros Hacc. apply accepted_cons_inv in Hacc.
        destruct Hacc as [(b' & Hf & _) | (c1 & c2 & e' & Hf & Hte & Hpe & _)];
          [congruence |].
        assert (e' = e) by congruence. subst e'.
        rewrite Hte, Hpe in Hcatch. discriminate.
    + assert (Hafter : forall w1 : world bot,
                 w_bot w1 = b1 ->
                 snd (deliver send chat_id parse_mode disable_preview n
                              (enumerate_from (S i) rest) w1) = inr tt
                 <-> accepted_all send chat_id parse_mode disable_preview
                                  (w_bot w) (chunk :: rest)).
      { intros w1 Hb. rewrite IH, Hb. split.
        - intros Hrest. eapply accepted_direct; eauto.
        - intros Hacc. apply accepted_cons_inv in Hacc.
          destruct Hacc as [(b' & Hf & Hr) | (c1 & c2 & e' & Hf & _)];
            [| congruence].
          assert (b' = b1) by congruence. subst b'. exact Hr. }
      destruct (Z.of_nat i <? Z.of_nat n - 1)%Z; apply Hafter; reflexivity.
Qed.

Lemma send_from_returns (n i : nat) (rest : list str) (w : world bot) :
  exists w' ok,
    send_from send chat_id parse_mode disable_preview n i rest w = (w', inr ok).
Proof.
  unfold send_from, try_except, bind.
  destruct (deliver send chat_id parse_mode disable_preview n (enumerate_from i rest) w)
    as [w' [e | []]]; do 2 eexists; reflexivity.
Qed.

Lemma send_from_true_iff (n i : nat) (rest : list str) (w : world bot) :
  snd (send_from send chat_id parse_mode disable_preview n i rest w) = inr true
  <-> snd (deliver send chat_id parse_mode disable_preview n (enumerate_from i rest) w)
      = inr tt.
Proof.
  unfold send_from, try_except, bind.
  destruct (deliver send chat_id parse_mode disable_preview n (enumerate_from i rest) w)
    as [w' [e | []]]; cbn; split; congruence.
Qed.

Lemma send_message_eq (message : str) (w : world bot) :
  send_message send chat_id message parse_mode disable_preview w
  = send_from send chat_id parse_mode disable_preview
              (length (_split_message message)) 0 (_split_message message) w.
Proof. reflexivity. Qed.

(** The loop over [pre ++ chunk :: rest] once the chunks of [pre] went
    through: it stands before [chunk], number [length pre]. *)
Lemma send_from_prefix (n : nat) (pre rest : list str) (chunk : str)
      (w wi : world bot) :
  deliver send chat_id parse_mode disable_preview n (enumerate_from 0 pre) w
  = (wi, inr tt) ->
  send_from send chat_id parse_mode disable_preview n 0 (pre ++ chunk :: rest) w
  = try_except
      (bind (bind (deliver_chunk send chat_id parse_mode disable_preview n
                                 (length pre) chunk)
                  (fun _ => deliver send chat_id parse_mode disable_preview n
                                    (enumerate_from (S (length pre)) rest)))
            (fun _ => ret true))
      (fun _ => true) (fun _ => ret false) wi.
Proof.
  intros Hpre. unfold send_from, try_except, bind.
  rewrite enumerate_from_app, deliver_app. unfold bind. rewrite Hpre.
  cbn [plus enumerate_from deliver]. unfold bind. reflexivity.
Qed.

End DeliveryFacts.

(** The handler lower-cases the error text before looking for the marker,
    so a text that has the marker as it stands passes the test too. *)
Lemma starts_with_lower (p s : str) :
  starts_with p s = true -> starts_with (lower p) (lower s) = true.
Proof.
  revert s. induction p as [| a p IH]; intros s; [reflexivity |].
  destruct s as [| b s]; cbn [starts_with lower map]; [discriminate |].
  intros H. apply andb_prop in H as [Hab Hrest].
  apply Ascii.eqb_eq in Hab. subst b.
  rewrite Ascii.eqb_refl. cbn [andb]. apply IH, Hrest.
Qed.

Lemma contains_cons (p : str) (b : ascii) (s : str) :
  contains p (b :: s) = starts_with p (b :: s) || contains p s.
Proof. reflexivity. Qed.

Lemma contains_lower (p s : str) :
  contains p s = true -> contains (lower p) (lower s) = true.
Proof.
  induction s as [| b s IH]; intros H.
  - cbn [contains] in H. apply orb_prop in H as [H | H]; [| discriminate].
    apply starts_with_lower in H.
    change (contains (lower p) (lower []))
      with (starts_with (lower p) (lower []) || false).
    now rewrite H.
  - rewrite contains_cons in H. apply orb_prop in H as [H | H].
    + apply starts_with_lower in H.
      change (lower (b :: s)) with (lower_ascii b :: lower s) in *.
      rewrite contains_cons, H. reflexivity.
    + change (lower (b :: s)) with (lower_ascii b :: lower s).
      rewrite contains_cons, (IH H). apply orb_true_r.
Qed.

Lemma marker_is_parse_error (m : str) :
  contains cant_parse m = true -> is_parse_error (TelegramError m) = true.
Proof. intros H. apply (contains_lower cant_parse m), H. Qed.

(** C6 (as the code has it). Let the loop stand before chunk number
    [length pre], and let the send of that chunk raise a [TelegramError]
    whose text passes the markup-parse test.  Then the same chunk, and only
    it, is sent once more with [parse_mode = None], straight after the
    failed send.  If the endpoint accepts the resend, the run goes on with
    the next chunk; if the resend raises, nothing more is sent and
    [send_message] returns [False]. *)
Theorem parse_failure_resends_same_chunk
        (bot : Type) (send : bot -> send_request -> bot * option exception)
        (chat_id : str) (parse_mode : option str) (disable_preview : bool)
        (message : str) (pre rest : list str) (chunk : str)
        (w wi : world bot) (b1 : bot) (m : str) :
  _split_message message = pre ++ chunk :: rest ->
  deliver send chat_id parse_mode disable_preview (length (pre ++ chunk :: rest))
          (enumerate_from 0 pre) w = (wi, inr tt) ->
  send (w_bot wi) (request chat_id chunk parse_mode disable_preview)
  = (b1, Some (TelegramError m)) ->
  is_parse_error (TelegramError m) = true ->
  let (b2, answer) := send b1 (request chat_id chunk None disable_preview) in
  send_message send chat_id message parse_mode disable_preview w
  = match answer with
    | None =>
        send_from send chat_id parse_mode disable_preview
                  (length (pre ++ chunk :: rest)) (S (length pre)) rest
                  {| w_bot := b2;
                     w_trace := w_trace wi
                                ++ [Send (request chat_id chunk parse_mode disable_preview);
                                    Send (request chat_id chunk None disable_preview)] |}
    | Some _ =>
        ({| w_bot := b2;
            w_trace := w_trace wi
                       ++ [Send (request chat_id chunk parse_mode disable_preview);
                           Send (request chat_id chunk None disable_preview)] |},
         inr false)
    end.
Proof.
  intros Hchunks Hpre Hfirst Hparse.
  rewrite send_message_eq, Hchunks, (send_from_prefix _ _ _ _ _ _ _ _ _ _ _ Hpre).
  unfold try_except, bind. rewrite deliver_chunk_eq, Hfirst.
  cbn [is_TelegramError andb]. rewrite Hparse.
  unfold await_send. cbn [w_bot w_trace].
  destruct (send b1 (request chat_id chunk None disable_preview)) as [b2 [e2 |]].
  - rewrite <- app_assoc. reflexivity.
  - unfold send_from, try_except, bind. rewrite <- app_assoc. reflexivity.
Qed.

Lemma parse_failure_resends_same_chunk_witness :
  send_message scripted_send chat two_chunk_message MARKDOWN true
               (start [Some parse_failure])
  = send_from scripted_send chat MARKDOWN true 2 1 [chunk_b]
              {| w_bot := [];
                 w_trace := [Send (request chat chunk_a MARKDOWN true);
                             Send (request chat chunk_a None true)] |}.
Proof.
  refine (parse_failure_resends_same_chunk
            scripted scripted_send chat MARKDOWN true two_chunk_message
            [] [chunk_b] chunk_a (start [Some parse_failure])
            (start [Some parse_failure]) []
            (list_ascii_of_string "Can't parse entities: can't find end of the entity")
            _ _ _ _).
  - vm_compute. reflexivity.
  - reflexivity.
  - reflexivity.
  - vm_compute. reflexivity.
Defined.

(** C6 (as stated, refuted). The send of chunk 0 fails with a markup-parse
    error and the chunk is resent plain, but the endpoint rejects the
    resend as well: the run stops after these two sends, chunk 1 is never
    sent, and [send_message] returns [False]. *)
Lemma failed_resend_stops_delivery :
  _split_message two_chunk_message = [chunk_a; chunk_b] /\
  scripted_send [Some parse_failure; Some timed_out]
                (request chat chunk_a MARKDOWN true)
  = ([Some timed_out], Some parse_failure) /\
  is_parse_error parse_failure = true /\
  send_message scripted_send chat two_chunk_message MARKDOWN true
               (start [Some parse_failure; Some timed_out])
  = ({| w_bot := [];
        w_trace := [Send (request chat chunk_a MARKDOWN true);
                    Send (request chat chunk_a None true)] |},
     inr false).
Proof. repeat split; vm_compute; reflexivity. Qed.

(** C7. [send_message] never raises; it returns [True] exactly when every
    chunk was accepted, at once or on its plain resend; and when the attempt
    on some chunk fails (its first send with anything but a markup-parse
    error, or its plain resend with any error) no later send is made and
    the result is [False]. *)
Theorem send_message_true_iff_all_accepted
        (bot : Type) (send : bot -> send_request -> bot * option exception)
        (chat_id : str) (parse_mode : option str) (disable_preview : bool)
        (message : str) (w : world bot) :
  (exists w' ok,
      send_message send chat_id message parse_mode disable_preview w = (w', inr ok)) /\
  (snd (send_message send chat_id message parse_mode disable_preview w) = inr true
   <-> accepted_all send chat_id parse_mode disable_preview (w_bot w)
                    (_split_message message)) /\
  (forall (pre rest : list str) (chunk : str) (wi : world bot)
          (b' : bot) (evs : list event) (e : exception),
      _split_message message = pre ++ chunk :: rest ->
      deliver send chat_id parse_mode disable_preview
              (length (_split_message message)) (enumerate_from 0 pre) w
      = (wi, inr tt) ->
      chunk_fails send chat_id parse_mode disable_preview (w_bot wi) chunk b' evs e ->
      send_message send chat_id message parse_mode disable_preview w
      = ({| w_bot := b'; w_trace := w_trace wi ++ evs |}, inr false)).
Proof.
  split; [| split].
  - rewrite send_message_eq. apply send_from_returns.
  - rewrite send_message_eq, send_from_true_iff. apply deliver_accepted_iff.
  - intros pre rest chunk wi b' evs e Hchunks Hpre Hfail.
    rewrite send_message_eq. rewrite Hchunks in *.
    rewrite (send_from_prefix _ _ _ _ _ _ _ _ _ _ _ Hpre).
    unfold try_except, bind. rewrite deliver_chunk_eq.
    destruct Hfail as [b1 e Hfirst Hother | b1 b2 e e2 Hfirst Hcatch Hplain].
    + rewrite Hfirst, Hother. reflexivity.
    + rewrite Hfirst, Hcatch. unfold await_send. cbn [w_bot w_trace].
      rewrite Hplain, <- app_assoc. reflexivity.
Qed.

(** C8 (the code departs from it). Chunk 0 of a two-chunk message is
    delivered through the plain resend, and chunk 1 is sent straight after
    it: no pause lies between the two chunks.  When chunk 0 is accepted at
    once, the pause is there. *)
Theorem no_pause_after_plain_resend :
  send_message scripted_send chat two_chunk_message MARKDOWN true
               (start [Some parse_failure])
  = ({| w_bot := [];
        w_trace := [Send (request chat chunk_a MARKDOWN true);
                    Send (request chat chunk_a None true);
                    Send (request chat chunk_b MARKDOWN true)] |},
     inr true) /\
  send_message scripted_send chat two_chunk_message MARKDOWN true (start [])
  = ({| w_bot := [];
        w_trace := [Send (request chat chunk_a MARKDOWN true);
                    Sleep 1;
                    Send (request chat chunk_b MARKDOWN true)] |},
     inr true).
Proof. split; vm_compute; reflexivity. Qed.

(** * Properties of the execution wrapper *)

Section WrapperFacts.

Variable env : Type.
Variable time_time : env -> Q * env.
Variable kickoff : env -> outcome string * env.



End WrapperFacts.


(** * Further properties of the chunking *)

Lemma strip_newlines_app (a b : str) :
  strip_newlines (a ++ b) = strip_newlines a ++ strip_newlines b.
Proof. apply filter_app. Qed.

Lemma strip_newlines_join (lines : list str) :
  strip_newlines (join_lines lines) = strip_newlines (concat lines).
Proof.
  induction lines as [| l lines IH]; [reflexivity |].
  destruct lines as [| l' lines].
  - cbn [join_lines concat]. now rewrite app_nil_r.
  - rewrite join_lines_cons. cbn [concat] in *.
    change (newline :: join_lines (l' :: lines))
      with ([newline] ++ join_lines (l' :: lines)).
    rewrite (strip_newlines_app l), (strip_newlines_app l (l' ++ concat lines)).
    rewrite strip_newlines_app, IH. reflexivity.
Qed.

Lemma split_step_text (st : list str * str) (line : str) :
  strip_newlines (text_of (split_step st line))
  = strip_newlines (text_of st) ++ strip_newlines line.
Proof.
  destruct st as [chunks cur]. unfold split_step, text_of.
  destruct (MAX_MESSAGE_LENGTH <? length line).
  - cbn [fst snd]. rewrite hard_split_into_eq, app_nil_r, concat_app.
    rewrite hard_split_concat.
    destruct (truthy cur) eqn:Hcur.
    + rewrite concat_app. cbn [concat]. rewrite app_nil_r.
      now rewrite strip_newlines_app.
    + apply truthy_false in Hcur. subst cur. rewrite app_nil_r.
      now rewrite strip_newlines_app.
  - destruct (MAX_MESSAGE_LENGTH <? length cur + length line + 1); cbn [fst snd].
    + rewrite concat_app. cbn [concat]. rewrite app_nil_r.
      now rewrite !strip_newlines_app.
    + rewrite !strip_newlines_app, <- !app_assoc. do 2 f_equal.
      destruct (truthy cur); reflexivity.
Qed.

Lemma fold_split_step_text (lines : list str) (st : list str * str) :
  strip_newlines (text_of (fold_left split_step lines st))
  = strip_newlines (text_of st) ++ strip_newlines (concat lines).
Proof.
  revert st. induction lines as [| line lines IH]; intros st; cbn [fold_left concat].
  - now rewrite app_nil_r.
  - rewrite IH, split_step_text, strip_newlines_app, app_assoc. reflexivity.
Qed.

(** X1. Apart from line breaks, [_split_message] neither drops, adds nor
    reorders a character: the chunks written one after the other, without
    their newlines, are the message without its newlines. *)
Theorem split_message_keeps_characters (message : str) :
  strip_newlines (concat (_split_message message)) = strip_newlines message.
Proof.
  unfold _split_message.
  destruct (length message <=? MAX_MESSAGE_LENGTH).
  { cbn [concat]. now rewrite app_nil_r. }
  pose proof (fold_split_step_text (split_lines message) ([], [])) as Hfold.
  rewrite <- strip_newlines_join, join_split_lines in Hfold.
  change (strip_newlines (text_of ([], [])) ++ strip_newlines message)
    with (strip_newlines message) in Hfold.
  destruct (fold_left split_step (split_lines message) ([], [])) as [chunks cur].
  unfold text_of in Hfold. cbn [fst snd] in Hfold.
  rewrite <- Hfold. f_equal.
  destruct (truthy cur) eqn:Hcur.
  - rewrite concat_app. cbn [concat]. now rewrite app_nil_r.
  - apply truthy_false in Hcur. subst cur. now rewrite app_nil_r.
Qed.

(** *** Lines that fit are kept whole *)

Lemma split_lines_app_newline (a b : str) :
  split_lines (a ++ newline :: b) = split_lines a ++ split_lines b.
Proof.
  induction a as [| c a IH]; cbn [app split_lines].
  - rewrite Ascii.eqb_refl. reflexivity.
  - rewrite IH. destruct (Ascii.eqb c newline); [reflexivity |].
    destruct (split_lines_cons a) as (l & ls & Ha). rewrite Ha. reflexivity.
Qed.

Lemma split_lines_no_newline (message line : str) :
  In line (split_lines message) -> ~ In newline line.
Proof.
  revert line. induction message as [| c message IH]; intros line Hin.
  - destruct Hin as [<- | []]. intros [].
  - cbn [split_lines] in Hin. destruct (Ascii.eqb c newline) eqn:Hc.
    + destruct Hin as [<- | Hin]; [intros [] | now apply IH].
    + destruct (split_lines_cons message) as (l & ls & Hm). rewrite Hm in *.
      destruct Hin as [<- | Hin].
      * intros [-> | Hl]; [now rewrite Ascii.eqb_refl in Hc |].
        apply (IH l); [now left | exact Hl].
      * apply IH. now right.
Qed.

Lemma split_lines_single (line : str) :
  ~ In newline line -> split_lines line = [line].
Proof.
  induction line as [| c line IH]; intros Hno; [reflexivity |].
  cbn [split_lines]. destruct (Ascii.eqb c newline) eqn:Hc.
  - apply Ascii.eqb_eq in Hc. subst c. exfalso. apply Hno. now left.
  - rewrite IH; [reflexivity |]. intros H. apply Hno. now right.
Qed.

Lemma chunks_of_cons_in (chunks : list str) (cur chunk : str) :
  In chunk chunks -> In chunk (chunks_of (chunks, cur)).
Proof.
  intros Hin. unfold chunks_of. cbn [fst snd].
  destruct (truthy cur); [apply in_or_app; now left | exact Hin].
Qed.

Lemma chunks_of_current_in (chunks : list str) (cur : str) :
  cur <> [] -> In cur (chunks_of (chunks, cur)).
Proof.
  intros Hcur. apply truthy_true in Hcur. unfold chunks_of. cbn [fst snd].
  rewrite Hcur. apply in_or_app. right. now left.
Qed.

Lemma chunks_of_in_inv (chunks : list str) (cur chunk : str) :
  In chunk (chunks_of (chunks, cur)) ->
  In chunk chunks \/ (chunk = cur /\ cur <> []).
Proof.
  unfold chunks_of. cbn [fst snd]. destruct (truthy cur) eqn:Hcur; [| now left].
  intros Hin. apply in_app_or in Hin as [Hin | [<- | []]]; [now left |].
  right. split; [reflexivity | now apply truthy_true].
Qed.

(** A line that sits whole in some chunk still does after one more step. *)
Lemma split_step_keeps_line (st : list str * str) (line kept : str) :
  (exists chunk, In chunk (chunks_of st) /\ In kept (split_lines chunk)) ->
  exists chunk,
    In chunk (chunks_of (split_step st line)) /\ In kept (split_lines chunk).
Proof.
  destruct st as [chunks cur]. intros (chunk & Hin & Hkept).
  apply chunks_of_in_inv in Hin. unfold split_step.
  destruct (MAX_MESSAGE_LENGTH <? length line).
  - exists chunk. split; [| exact Hkept].
    apply chunks_of_cons_in. rewrite hard_split_into_eq.
    apply in_or_app. left.
    destruct Hin as [Hin | [-> Hcur]].
    + destruct (truthy cur); [apply in_or_app; now left | exact Hin].
    + apply truthy_true in Hcur. rewrite Hcur. apply in_or_app. right. now left.
  - destruct (MAX_MESSAGE_LENGTH <? length cur + length line + 1).
    + exists chunk. split; [| exact Hkept].
      apply chunks_of_cons_in, in_or_app.
      destruct Hin as [Hin | [-> _]]; [now left | right; now left].
    + destruct Hin as [Hin | [-> Hcur]].
      * exists chunk. split; [now apply chunks_of_cons_in | exact Hkept].
      * apply truthy_true in Hcur. rewrite Hcur.
        exists (cur ++ [newline] ++ line). split.
        -- apply chunks_of_current_in. intros H.
           apply app_eq_nil in H as [_ H]. discriminate.
        -- cbn [app]. rewrite split_lines_app_newline.
           apply in_or_app. now left.
Qed.

(** A non-empty line that fits sits whole in some chunk once it has been
    processed. *)
Lemma split_step_places_line (st : list str * str) (line : str) :
  line <> [] -> length line <= MAX_MESSAGE_LENGTH -> ~ In newline line ->
  exists chunk,
    In chunk (chunks_of (split_step st line)) /\ In line (split_lines chunk).
Proof.
  intros Hline Hfit Hno. destruct st as [chunks cur]. unfold split_step.
  apply Nat.ltb_ge in Hfit. rewrite Hfit.
  assert (Hself : In line (split_lines line)).
  { rewrite split_lines_single by exact Hno. now left. }
  destruct (MAX_MESSAGE_LENGTH <? length cur + length line + 1).
  - exists line. split; [now apply chunks_of_current_in | exact Hself].
  - destruct (truthy cur) eqn:Hcur.
    + exists (cur ++ [newline] ++ line). split.
      * apply chunks_of_current_in. intros H.
        apply app_eq_nil in H as [_ H]. discriminate.
      * cbn [app]. rewrite split_lines_app_newline.
        apply in_or_app. now right.
    + apply truthy_false in Hcur. subst cur. cbn [app].
      exists line. split; [now apply chunks_of_current_in | exact Hself].
Qed.

Lemma fold_split_step_keeps_line (lines : list str) (st : list str * str)
      (kept : str) :
  (exists chunk, In chunk (chunks_of st) /\ In kept (split_lines chunk)) \/
  (In kept lines /\ kept <> [] /\ length kept <= MAX_MESSAGE_LENGTH /\
   ~ In newline kept) ->
  exists chunk,
    In chunk (chunks_of (fold_left split_step lines st)) /\
    In kept (split_lines chunk).
Proof.
  revert st. induction lines as [| line lines IH]; intros st H; cbn [fold_left].
  - destruct H as [H | [[] _]]. exact H.
  - apply IH. destruct H as [H | ([<- | Hin] & Hne & Hfit & Hno)].
    + left. now apply split_step_keeps_line.
    + left. now apply split_step_places_line.
    + right. auto.
Qed.

(** X2. A non-empty line of the message that fits the limit is never cut:
    it is, whole, one of the lines of some chunk. *)
Theorem split_message_keeps_fitting_lines (message line : str) :
  In line (split_lines message) ->
  line <> [] ->
  length line <= MAX_MESSAGE_LENGTH ->
  exists chunk,
    In chunk (_split_message message) /\ In line (split_lines chunk).
Proof.
  intros Hin Hne Hfit. unfold _split_message.
  destruct (length message <=? MAX_MESSAGE_LENGTH).
  { exists message. split; [now left | exact Hin]. }
  destruct (fold_split_step_keeps_line (split_lines message) ([], []) line)
    as (chunk & Hchunk & Hline).
  { right. repeat split; auto. now apply split_lines_no_newline with message. }
  destruct (fold_left split_step (split_lines message) ([], [])) as [chunks cur].
  exists chunk. split; [exact Hchunk | exact Hline].
Qed.

Lemma split_message_keeps_fitting_lines_witness :
  exists chunk,
    In chunk (_split_message two_chunk_message) /\ In chunk_b (split_lines chunk).
Proof.
  apply (split_message_keeps_fitting_lines two_chunk_message chunk_b).
  - vm_compute. right. left. reflexivity.
  - discriminate.
  - unfold chunk_b, MAX_MESSAGE_LENGTH. rewrite repeat_length. lia.
Defined.

(** * Further properties of the delivery loop *)

Lemma allowed_event_weaken (chat_id : str) (parse_mode : option str)
      (disable_preview : bool) (chunks chunks' : list str) (ev : event) :
  incl chunks chunks' ->
  allowed_event chat_id parse_mode disable_preview chunks ev ->
  allowed_event chat_id parse_mode disable_preview chunks' ev.
Proof.
  intros Hincl. destruct ev as [r | seconds]; cbn [allowed_event]; [| auto].
  intros (Hchat & Hin & Hmode & Hprev). auto.
Qed.

Section TraceFacts.

Variable bot : Type.
Variable send : bot -> send_request -> bot * option exception.
Variable chat_id : str.
Variable parse_mode : option str.
Variable disable_preview : bool.

Lemma allowed_first_try (chunk : str) (rest : list str) :
  allowed_event chat_id parse_mode disable_preview (chunk :: rest)
                (Send (request chat_id chunk parse_mode disable_preview)).
Proof. cbn. repeat split; auto. Qed.

Lemma allowed_plain_try (chunk : str) (rest : list str) :
  allowed_event chat_id parse_mode disable_preview (chunk :: rest)
                (Send (request chat_id chunk None disable_preview)).
Proof. cbn. repeat split; auto. Qed.

(** Everything the loop adds to the trace, chunk by chunk: [ks] counts the
    sends made for each chunk that was reached. *)
Lemma deliver_events (n i : nat) (chunks : list str) (w : world bot) :
  exists evs ks,
    w_trace (fst (deliver send chat_id parse_mode disable_preview n
                          (enumerate_from i chunks) w))
    = w_trace w ++ evs /\
    Forall (allowed_event chat_id parse_mode disable_preview chunks) evs /\
    length ks <= length chunks /\
    Forall (fun k => k = 1 \/ k = 2) ks /\
    sent_texts evs
    = flat_map (fun ck => repeat (fst ck) (snd ck)) (combine chunks ks) /\
    (snd (deliver send chat_id parse_mode disable_preview n
                  (enumerate_from i chunks) w) = inr tt ->
     length ks = length chunks).
Proof.
  revert i w. induction chunks as [| chunk rest IH]; intros i w;
    cbn [enumerate_from deliver].
  - exists [], []. cbn. rewrite app_nil_r. repeat split; auto.
  - assert (Hweak : forall evs,
               Forall (allowed_event chat_id parse_mode disable_preview rest) evs ->
               Forall (allowed_event chat_id parse_mode disable_preview (chunk :: rest))
                      evs).
    { intros evs. apply Forall_impl. intros ev.
      apply allowed_event_weaken. intros x Hx. now right. }
    unfold bind. rewrite deliver_chunk_eq.
    destruct (send (w_bot w) (request chat_id chunk parse_mode disable_preview))
      as [b1 [e |]].
    + destruct (is_TelegramError e && is_parse_error e).
      * unfold await_send. cbn [w_bot w_trace].
        destruct (send b1 (request chat_id chunk None disable_preview))
          as [b2 [e2 |]].
        -- exists [Send (request chat_id chunk parse_mode disable_preview);
                   Send (request chat_id chunk None disable_preview)], [2].
           cbn [fst snd w_trace]. rewrite <- app_assoc.
           split; [reflexivity |].
           split; [constructor; [apply allowed_first_try |];
                   constructor; [apply allowed_plain_try | constructor] |].
           split; [cbn [length]; lia |].
           split; [constructor; [now right | constructor] |].
           split; [destruct rest; reflexivity | discriminate].
        -- match goal with
           | |- context [deliver _ _ _ _ _ _ ?w2] =>
               destruct (IH (S i) w2) as (evs & ks & Htr & Hall & Hlen & Hks & Htx & Hok)
           end.
           exists (Send (request chat_id chunk parse_mode disable_preview)
                   :: Send (request chat_id chunk None disable_preview) :: evs),
                  (2 :: ks).
           split; [rewrite Htr; cbn [w_trace]; now rewrite <- !app_assoc |].
           split; [constructor; [apply allowed_first_try |];
                   constructor; [apply allowed_plain_try | auto] |].
           split; [cbn [length]; lia |].
           split; [constructor; [now right | exact Hks] |].
           split.
           ++ cbn [sent_texts flat_map combine fst snd repeat app req_text request].
              unfold sent_texts in Htx. now rewrite Htx.
           ++ intros H. cbn [length]. now rewrite (Hok H).
      * exists [Send (request chat_id chunk parse_mode disable_preview)], [1].
        cbn [fst snd w_trace].
        split; [reflexivity |].
        split; [constructor; [apply allowed_first_try | constructor] |].
        split; [cbn [length]; lia |].
        split; [constructor; [now left | constructor] |].
        split; [destruct rest; reflexivity | discriminate].
    + destruct (Z.of_nat i <? Z.of_nat n - 1)%Z; cbv beta iota zeta.
      * match goal with
        | |- context [deliver _ _ _ _ _ _ ?w2] =>
            destruct (IH (S i) w2) as (evs & ks & Htr & Hall & Hlen & Hks & Htx & Hok)
        end.
        exists (Send (request chat_id chunk parse_mode disable_preview)
                :: Sleep 1 :: evs), (1 :: ks).
        split; [rewrite Htr; unfold emit; cbn [w_trace]; now rewrite <- !app_assoc |].
        split; [constructor; [apply allowed_first_try |];
                constructor; [reflexivity | auto] |].
        split; [cbn [length]; lia |].
        split; [constructor; [now left | exact Hks] |].
        split.
        -- cbn [sent_texts flat_map combine fst snd repeat app req_text request].
           unfold sent_texts in Htx. now rewrite Htx.
        -- intros H. cbn [length]. now rewrite (Hok H).
      * match goal with
        | |- context [deliver _ _ _ _ _ _ ?w2] =>
            destruct (IH (S i) w2) as (evs & ks & Htr & Hall & Hlen & Hks & Htx & Hok)
        end.
        exists (Send (request chat_id chunk parse_mode disable_preview) :: evs),
               (1 :: ks).
        split; [rewrite Htr; cbn [w_trace]; now rewrite <- !app_assoc |].
        split; [constructor; [apply allowed_first_try | auto] |].
        split; [cbn [length]; lia |].
        split; [constructor; [now left | exact Hks] |].
        split.
        -- cbn [sent_texts flat_map combine fst snd repeat app req_text request].
           unfold sent_texts in Htx. now rewrite Htx.
        -- intros H. cbn [length]. now rewrite (Hok H).
Qed.

Lemma send_from_world (n i : nat) (rest : list str) (w : world bot) :
  fst (send_from send chat_id parse_mode disable_preview n i rest w)
  = fst (deliver send chat_id parse_mode disable_preview n (enumerate_from i rest) w).
Proof.
  unfold send_from, try_except, bind.
  destruct (deliver send chat_id parse_mode disable_preview n (enumerate_from i rest) w)
    as [w' [e | []]]; reflexivity.
Qed.

End TraceFacts.

Lemma split_message_chunk_length (message chunk : str) :
  In chunk (_split_message message) -> length chunk <= MAX_MESSAGE_LENGTH.
Proof.
  unfold _split_message.
  destruct (length message <=? MAX_MESSAGE_LENGTH) eqn:Hshort.
  - apply Nat.leb_le in Hshort. intros [<- | []]. exact Hshort.
  - assert (Hfit : fits (fold_left split_step (split_lines message) ([], []))).
    { apply fold_split_step_fits. split; cbn [fst snd length]; [constructor | lia]. }
    destruct (fold_left split_step (split_lines message) ([], [])) as [chunks cur].
    destruct Hfit as [Hchunks Hcur]. cbn [fst snd] in *.
    rewrite Forall_forall in Hchunks.
    destruct (truthy cur); [| now apply Hchunks].
    intros Hin. apply in_app_or in Hin as [Hin | [<- | []]]; auto.
Qed.

(** X3. Whatever the endpoint answers, [send_message] only adds to the
    trace, and what it adds is pauses of one second and sends to
    [self.chat_id] whose text is one of the chunks of the message (so at
    most 4096 characters), with the caller's preview flag and with either
    the caller's parse mode or none. *)
Theorem send_message_only_sends_chunks
        (bot : Type) (send : bot -> send_request -> bot * option exception)
        (chat_id : str) (parse_mode : option str) (disable_preview : bool)
        (message : str) (w : world bot) :
  exists evs,
    w_trace (fst (send_message send chat_id message parse_mode disable_preview w))
    = w_trace w ++ evs /\
    Forall (allowed_event chat_id parse_mode disable_preview
                          (_split_message message)) evs /\
    Forall (fun ev => match ev with
                      | Send r => length (req_text r) <= 4096
                      | Sleep seconds => seconds = 1
                      end) evs.
Proof.
  rewrite send_message_eq, send_from_world.
  destruct (deliver_events bot send chat_id parse_mode disable_preview
                           (length (_split_message message)) 0
                           (_split_message message) w)
    as (evs & ks & Htr & Hall & _).
  exists evs. split; [exact Htr |]. split; [exact Hall |].
  eapply Forall_impl; [| exact Hall].
  intros [r | seconds]; cbn [allowed_event]; [| auto].
  intros (_ & Hin & _). rewrite <- MAX_MESSAGE_LENGTH_value.
  now apply split_message_chunk_length with message.
Qed.

(** X4. The texts [send_message] hands to the endpoint are the chunks of
    the message in their order, each of them once or twice (twice: the
    plain resend), up to the chunk at which delivery stopped; when the
    result is [True] every chunk is among them. *)
Theorem send_message_sends_in_order
        (bot : Type) (send : bot -> send_request -> bot * option exception)
        (chat_id : str) (parse_mode : option str) (disable_preview : bool)
        (message : str) (w : world bot) :
  exists evs ks,
    w_trace (fst (send_message send chat_id message parse_mode disable_preview w))
    = w_trace w ++ evs /\
    length ks <= length (_split_message message) /\
    Forall (fun k => k = 1 \/ k = 2) ks /\
    sent_texts evs
    = flat_map (fun ck => repeat (fst ck) (snd ck))
               (combine (_split_message message) ks) /\
    (snd (send_message send chat_id message parse_mode disable_preview w) = inr true ->
     length ks = length (_split_message message)).
Proof.
  destruct (deliver_events bot send chat_id parse_mode disable_preview
                           (length (_split_message message)) 0
                           (_split_message message) w)
    as (evs & ks & Htr & _ & Hlen & Hks & Htx & Hok).
  exists evs, ks. rewrite send_message_eq, send_from_world.
  split; [exact Htr |]. split; [exact Hlen |]. split; [exact Hks |].
  split; [exact Htx |].
  intros Htrue. apply Hok. now apply send_from_true_iff.
Qed.

Lemma deliver_paced
      (bot : Type) (send : bot -> send_request -> bot * option exception)
      (chat_id : str) (parse_mode : option str) (disable_preview : bool)
      (n i : nat) (chunks : list str) (w : world bot) :
  (forall b r, snd (send b r) = None) ->
  i + length chunks = n ->
  exists b',
    deliver send chat_id parse_mode disable_preview n (enumerate_from i chunks) w
    = ({| w_bot := b';
          w_trace :=
            w_trace w
            ++ intersperse
                 (Sleep 1)
                 (map (fun chunk =>
                         Send (request chat_id chunk parse_mode disable_preview))
                      chunks) |},
       inr tt).
Proof.
  intros Haccept. revert i w.
  induction chunks as [| chunk rest IH]; intros i w Hn;
    cbn [enumerate_from deliver map].
  - exists (w_bot w). cbn [intersperse]. rewrite app_nil_r. now destruct w.
  - unfold bind. rewrite deliver_chunk_eq.
    pose proof (Haccept (w_bot w)
                        (request chat_id chunk parse_mode disable_preview)) as Hacc.
    destruct (send (w_bot w) (request chat_id chunk parse_mode disable_preview))
      as [b1 answer].
    cbn [snd] in Hacc. subst answer. cbv beta iota zeta.
    cbn [length] in Hn.
    destruct rest as [| chunk' rest].
    + replace (Z.of_nat i <? Z.of_nat n - 1)%Z with false
        by (symmetry; apply Z.ltb_ge; cbn [length] in Hn; lia).
      exists b1. reflexivity.
    + replace (Z.of_nat i <? Z.of_nat n - 1)%Z with true
        by (symmetry; apply Z.ltb_lt; cbn [length] in Hn; lia).
      match goal with
      | |- context [deliver _ _ _ _ _ _ ?w2] =>
          destruct (IH (S i) w2) as [b' Hrest]
      end.
      { cbn [length] in *. lia. }
      exists b'. rewrite Hrest. unfold emit. cbn [w_bot w_trace].
      rewrite <- !app_assoc. reflexivity.
Qed.

(** X5. On an endpoint that accepts every send, [send_message] returns
    [True] and adds to the trace exactly the chunks of the message in
    order, one send each in the caller's parse mode, with a pause of one
    second between every two neighbours and none before the first or after
    the last. *)
Theorem send_message_paced
        (bot : Type) (send : bot -> send_request -> bot * option exception)
        (chat_id : str) (parse_mode : option str) (disable_preview : bool)
        (message : str) (w : world bot) :
  (forall b r, snd (send b r) = None) ->
  exists b',
    send_message send chat_id message parse_mode disable_preview w
    = ({| w_bot := b';
          w_trace :=
            w_trace w
            ++ intersperse
                 (Sleep 1)
                 (map (fun chunk =>
                         Send (request chat_id chunk parse_mode disable_preview))
                      (_split_message message)) |},
       inr true).
Proof.
  intros Haccept. rewrite send_message_eq. unfold send_from, try_except, bind.
  destruct (deliver_paced bot send chat_id parse_mode disable_preview
                          (length (_split_message message)) 0
                          (_split_message message) w Haccept eq_refl)
    as [b' Hrun].
  rewrite Hrun. exists b'. reflexivity.
Qed.

Lemma send_message_paced_witness :
  exists b',
    send_message accept_all chat two_chunk_message MARKDOWN true
                 {| w_bot := tt; w_trace := [] |}
    = ({| w_bot := b';
          w_trace :=
            []
            ++ intersperse
                 (Sleep 1)
                 (map (fun chunk => Send (request chat chunk MARKDOWN true))
                      (_split_message two_chunk_message)) |},
       inr true).
Proof.
  apply (send_message_paced unit accept_all chat MARKDOWN true two_chunk_message
                            {| w_bot := tt; w_trace := [] |}).
  intros b r. reflexivity.
Defined.

(** * Properties of the configuration code *)

Lemma truthy_opt_true (a : option str) :
  truthy_opt a = true <-> exists s, a = Some s /\ s <> [].
Proof.
  destruct a as [s |]; cbn [truthy_opt].
  - rewrite truthy_true. split.
    + intros H. exists s. auto.
    + intros (s' & [= <-] & H). exact H.
  - split; [discriminate | intros (s & H & _); discriminate].
Qed.

Lemma str_eqb_eq (a b : str) : str_eqb a b = true <-> a = b.
Proof.
  revert b. induction a as [| x a IH]; intros [| y b]; cbn [str_eqb];
    try (split; [reflexivity || discriminate | reflexivity || discriminate]).
  rewrite andb_true_iff, Ascii.eqb_eq, IH. split.
  - intros [-> ->]. reflexivity.
  - intros [= -> ->]. auto.
Qed.

Lemma filter_nil_iff (A : Type) (f : A -> bool) (l : list A) :
  filter f l = [] <-> Forall (fun x => f x = false) l.
Proof.
  induction l as [| x l IH]; cbn [filter].
  - split; constructor.
  - destruct (f x) eqn:Hx.
    + split; [discriminate |]. intros H. inversion H; congruence.
    + rewrite IH. split; [now constructor | intros H; now inversion H].
Qed.

Lemma main_runs_configured (getenv : environ) (argv : list str) :
  exits_with (main getenv argv) = None ->
  Forall (fun var => truthy_opt (getenv var) = true) required_vars.
Proof.
  unfold main.
  destruct (filter (fun var => negb (truthy_opt (getenv var))) required_vars)
    as [| var missing] eqn:Hmissing; [| discriminate].
  intros _. apply filter_nil_iff in Hmissing.
  eapply Forall_impl; [| exact Hmissing].
  cbn beta. intros var H. now apply negb_false_iff.
Qed.

(** X7. When [main] gets as far as running a mode, constructing the
    notifier from the environment, as the modes do, cannot raise
    [ValueError], and the language model gets a non-empty API key. *)
Theorem main_guards_construction (getenv : environ) (argv : list str) :
  exits_with (main getenv argv) = None ->
  (exists self, TelegramNotifier_init getenv None None = inr self) /\
  (exists key, llm_api_key (_init_llm getenv) = Some key /\ key <> []).
Proof.
  intros Hruns. apply main_runs_configured in Hruns.
  unfold required_vars in Hruns.
  inversion Hruns as [| ? ? Hgemini H1]; subst.
  inversion H1 as [| ? ? _ H2]; subst.
  inversion H2 as [| ? ? Htoken H3]; subst.
  inversion H3 as [| ? ? Hchat _]; subst.
  split.
  - unfold TelegramNotifier_init, py_or. cbn [truthy_opt].
    rewrite Htoken, Hchat. cbn [negb]. eexists. reflexivity.
  - cbn [_init_llm llm_api_key]. now apply truthy_opt_true.
Qed.

Lemma main_guards_construction_witness :
  (exists self, TelegramNotifier_init configured None None = inr self) /\
  (exists key, llm_api_key (_init_llm configured) = Some key /\ key <> []).
Proof.
  apply (main_guards_construction configured [list_ascii_of_string "main.py"]).
  reflexivity.
Defined.

Lemma starts_with_app (p s : str) : starts_with p (p ++ s) = true.
Proof.
  induction p as [| a p IH]; [reflexivity |].
  cbn [app starts_with]. now rewrite Ascii.eqb_refl, IH.
Qed.

(** X9. The model name [_init_llm] hands on always starts with "gemini/":
    a configured name that has the prefix is passed unchanged, and any
    other name gets the prefix put in front of it once. *)
Theorem init_llm_model_prefixed (getenv : environ) :
  starts_with gemini_prefix (llm_model (_init_llm getenv)) = true /\
  (forall name,
      getenv (list_ascii_of_string "GEMINI_MODEL_NAME") = Some name ->
      (starts_with gemini_prefix name = true /\
       llm_model (_init_llm getenv) = name) \/
      (starts_with gemini_prefix name = false /\
       llm_model (_init_llm getenv) = gemini_prefix ++ name)).
Proof.
  unfold _init_llm. cbn [llm_model]. split.
  - destruct (getenv (list_ascii_of_string "GEMINI_MODEL_NAME")) as [name |].
    + destruct (starts_with gemini_prefix name) eqn:Hp; cbn [negb];
        [exact Hp | apply starts_with_app].
    + reflexivity.
  - intros name ->.
    destruct (starts_with gemini_prefix name); cbn [negb]; auto.
Qed.

Lemma lower_ascii_t (c : ascii) :
  lower_ascii c = "t"%char <-> c = "t"%char \/ c = "T"%char.
Proof.
  destruct c as [[] [] [] [] [] [] [] []]; vm_compute;
    (split; [intros H; first [discriminate H | auto] | intros [H | H]; first [discriminate H | reflexivity]]).
Qed.

Lemma lower_ascii_r (c : ascii) :
  lower_ascii c = "r"%char <-> c = "r"%char \/ c = "R"%char.
Proof.
  destruct c as [[] [] [] [] [] [] [] []]; vm_compute;
    (split; [intros H; first [discriminate H | auto] | intros [H | H]; first [discriminate H | reflexivity]]).
Qed.

Lemma lower_ascii_u (c : ascii) :
  lower_ascii c = "u"%char <-> c = "u"%char \/ c = "U"%char.
Proof.
  destruct c as [[] [] [] [] [] [] [] []]; vm_compute;
    (split; [intros H; first [discriminate H | auto] | intros [H | H]; first [discriminate H | reflexivity]]).
Qed.

Lemma lower_ascii_e (c : ascii) :
  lower_ascii c = "e"%char <-> c = "e"%char \/ c = "E"%char.
Proof.
  destruct c as [[] [] [] [] [] [] [] []]; vm_compute;
    (split; [intros H; first [discriminate H | auto] | intros [H | H]; first [discriminate H | reflexivity]]).
Qed.

(** X10. The scheduler is enabled exactly when SCHEDULE_ENABLED is unset
    or spells "true" in any mix of upper and lower case; every other
    value, such as "1", "yes" or the empty string, disables it. *)
Theorem schedule_enabled_iff (getenv : environ) :
  schedule_enabled getenv = true <->
  getenv (list_ascii_of_string "SCHEDULE_ENABLED") = None \/
  exists a b c d,
    getenv (list_ascii_of_string "SCHEDULE_ENABLED") = Some [a; b; c; d] /\
    (a = "t"%char \/ a = "T"%char) /\
    (b = "r"%char \/ b = "R"%char) /\
    (c = "u"%char \/ c = "U"%char) /\
    (d = "e"%char \/ d = "E"%char).
Proof.
  unfold schedule_enabled.
  destruct (getenv (list_ascii_of_string "SCHEDULE_ENABLED")) as [v |].
  2: { split; [now left | reflexivity]. }
  rewrite str_eqb_eq. split.
  - intros H. right.
    destruct v as [| a [| b [| c [| d [| x v]]]]]; try discriminate H.
    cbn in H. injection H as Ha Hb Hc Hd.
    exists a, b, c, d. split; [reflexivity |].
    rewrite <- lower_ascii_t, <- lower_ascii_r, <- lower_ascii_u, <- lower_ascii_e.
    auto.
  - intros [H | (a & b & c & d & [= ->] & Ha & Hb & Hc & Hd)]; [discriminate |].
    apply lower_ascii_t in Ha. apply lower_ascii_r in Hb.
    apply lower_ascii_u in Hc. apply lower_ascii_e in Hd.
    cbn [lower map]. rewrite Ha, Hb, Hc, Hd. reflexivity.
Qed.

(** * When nothing at all is sent *)

Lemma all_newlines_repeat (message : str) :
  Forall (fun c => c = newline) message ->
  message = repeat newline (length message).
Proof.
  induction 1 as [| c message Hc _ IH]; [reflexivity |].
  cbn [length repeat]. now rewrite Hc, <- IH.
Qed.

Lemma strip_newlines_nil (message : str) :
  strip_newlines message = [] -> Forall (fun c => c = newline) message.
Proof.
  unfold strip_newlines. intros H. apply filter_nil_iff in H.
  eapply Forall_impl; [| exact H]. cbn beta. intros c Hc.
  apply negb_false_iff in Hc. now apply Ascii.eqb_eq.
Qed.

(** X13. [_split_message] returns no chunk at all, so that [send_message]
    sends nothing, exactly for the messages longer than the limit that
    consist of newlines only. *)
Theorem split_message_empty_iff (message : str) :
  _split_message message = [] <->
  MAX_MESSAGE_LENGTH < length message /\ Forall (fun c => c = newline) message.
Proof.
  split.
  - intros Hnone.
    assert (Hlong : MAX_MESSAGE_LENGTH < length message).
    { unfold _split_message in Hnone.
      destruct (length message <=? MAX_MESSAGE_LENGTH) eqn:Hshort;
        [discriminate | now apply Nat.leb_gt]. }
    split; [exact Hlong |].
    apply strip_newlines_nil.
    unfold _split_message in Hnone.
    apply Nat.leb_gt in Hlong. rewrite Hlong in Hnone.
    pose proof (fold_split_step_text (split_lines message) ([], [])) as Hfold.
    rewrite <- strip_newlines_join, join_split_lines in Hfold.
    change (strip_newlines (text_of ([], [])) ++ strip_newlines message)
      with (strip_newlines message) in Hfold.
    destruct (fold_left split_step (split_lines message) ([], [])) as [chunks cur].
    rewrite <- Hfold. unfold text_of. cbn [fst snd].
    destruct (truthy cur) eqn:Hcur.
    + destruct chunks; discriminate.
    + apply truthy_false in Hcur. subst. reflexivity.
  - intros [Hlong Hall]. rewrite (all_newlines_repeat message Hall).
    now apply split_message_newlines.
Qed.

(** * The cron expression of the scheduler *)

Lemma split_ws_fields (s : str) :
  Forall (fun f => f <> [] /\ existsb is_space f = false) (split_ws s).
Proof.
  induction s as [| c s IH]; [constructor |].
  cbn [split_ws]. destruct (is_space c) eqn:Hc; [exact IH |].
  assert (Hsingle : [c] <> [] /\ existsb is_space [c] = false).
  { split; [discriminate |]. cbn [existsb]. now rewrite Hc. }
  destruct s as [| c' s].
  - constructor; [exact Hsingle | constructor].
  - destruct (is_space c') eqn:Hc'.
    + constructor; [exact Hsingle | exact IH].
    + destruct (split_ws (c' :: s)) as [| w ws].
      * constructor; [exact Hsingle | constructor].
      * inversion IH as [| ? ? [_ Hw] Hws]; subst.
        constructor; [| exact Hws].
        split; [discriminate |]. cbn [existsb]. now rewrite Hc, Hw.
Qed.

Lemma split_ws_field (f : str) :
  f <> [] -> existsb is_space f = false -> split_ws f = [f].
Proof.
  induction f as [| c f IH]; intros Hne Hno; [congruence |].
  cbn [existsb] in Hno. apply orb_false_iff in Hno as [Hc Hf].
  cbn [split_ws]. rewrite Hc. destruct f as [| c' f]; [reflexivity |].
  pose proof Hf as Hf'. cbn [existsb] in Hf'.
  apply orb_false_iff in Hf' as [Hc' _]. rewrite Hc'.
  rewrite IH; [reflexivity | discriminate | exact Hf].
Qed.

Lemma split_ws_field_space (f rest : str) :
  f <> [] -> existsb is_space f = false ->
  split_ws (f ++ " "%char :: rest) = f :: split_ws rest.
Proof.
  induction f as [| c f IH]; intros Hne Hno; [congruence |].
  cbn [existsb] in Hno. apply orb_false_iff in Hno as [Hc Hf].
  cbn [app split_ws]. rewrite Hc. destruct f as [| c' f].
  - cbn [app]. reflexivity.
  - pose proof Hf as Hf'. cbn [existsb] in Hf'.
    apply orb_false_iff in Hf' as [Hc' _].
    cbn [app]. rewrite Hc'.
    change (c' :: f ++ " "%char :: rest) with ((c' :: f) ++ " "%char :: rest).
    rewrite IH; [reflexivity | discriminate | exact Hf].
Qed.

(** X14. When the scheduler is enabled and [start_with_cron] gets as far as
    building the trigger, the five fields it passes on are non-empty, hold
    no blank, and are all there is in the expression: written out with
    single spaces they make an expression that is read as the same five
    fields. *)
Theorem start_with_cron_fields
        (cron_expression minute hour day month day_of_week : str) :
  start_with_cron true cron_expression
  = CronScheduled minute hour day month day_of_week ->
  Forall (fun f => f <> [] /\ existsb is_space f = false)
         [minute; hour; day; month; day_of_week] /\
  split_ws cron_expression = [minute; hour; day; month; day_of_week] /\
  start_with_cron true (join_spaces [minute; hour; day; month; day_of_week])
  = CronScheduled minute hour day month day_of_week.
Proof.
  unfold start_with_cron at 1. cbn [negb].
  pose proof (split_ws_fields cron_expression) as Hfields.
  destruct (split_ws cron_expression) as [| f1 [| f2 [| f3 [| f4 [| f5 [| f6 fs]]]]]];
    try discriminate.
  intros [= <- <- <- <- <-].
  split; [exact Hfields |]. split; [reflexivity |].
  inversion Hfields as [| ? ? [N1 S1] H1]; subst.
  inversion H1 as [| ? ? [N2 S2] H2]; subst.
  inversion H2 as [| ? ? [N3 S3] H3]; subst.
  inversion H3 as [| ? ? [N4 S4] H4]; subst.
  inversion H4 as [| ? ? [N5 S5] _]; subst.
  unfold start_with_cron. cbn [negb join_spaces].
  rewrite !split_ws_field_space, split_ws_field by assumption.
  reflexivity.
Qed.

Lemma start_with_cron_fields_witness :
  Forall (fun f => f <> [] /\ existsb is_space f = false)
         [["0"%char]; ["9"%char]; ["*"%char]; ["*"%char]; ["*"%char]] /\
  split_ws daily_at_nine = [["0"%char]; ["9"%char]; ["*"%char]; ["*"%char]; ["*"%char]] /\
  start_with_cron
    true (join_spaces [["0"%char]; ["9"%char]; ["*"%char]; ["*"%char]; ["*"%char]])
  = CronScheduled ["0"%char] ["9"%char] ["*"%char] ["*"%char] ["*"%char].
Proof.
  apply (start_with_cron_fields daily_at_nine).
  reflexivity.
Defined.

(** * The execution wrapper with every ending and the float clock *)

Section FloatDifference.

Import SpecFloat.
Local Open Scope Z_scope.

Lemma digits2_pos_bounds (m : positive) :
  2 ^ (Zpos (digits2_pos m) - 1) <= Zpos m < 2 ^ Zpos (digits2_pos m).
Proof.
  induction m as [m IH | m IH |]; cbn [digits2_pos].
  - rewrite Pos2Z.inj_succ.
    replace (Z.succ (Zpos (digits2_pos m)) - 1) with (Z.succ (Zpos (digits2_pos m) - 1)) by lia.
    rewrite !Z.pow_succ_r by lia. lia.
  - rewrite Pos2Z.inj_succ.
    replace (Z.succ (Zpos (digits2_pos m)) - 1) with (Z.succ (Zpos (digits2_pos m) - 1)) by lia.
    rewrite !Z.pow_succ_r by lia. lia.
  - cbn. lia.
Qed.

Lemma iter_xO_value (m d : positive) :
  Zpos (Pos.iter xO m d) = Zpos m * 2 ^ Zpos d.
Proof.
  revert m. induction d as [| d IH] using Pos.peano_ind; intros m.
  - cbn. lia.
  - rewrite Pos.iter_succ, Pos2Z.inj_succ, Z.pow_succ_r by lia.
    rewrite Pos2Z.inj_xO, IH. lia.
Qed.

Lemma shl_align_value (m : positive) (e ez : Z) :
  ez <= e ->
  Zpos (fst (shl_align m e ez)) = Zpos m * 2 ^ (e - ez).
Proof.
  intros Hle. unfold shl_align.
  destruct (ez - e) as [| d | d] eqn:Hd; cbn [fst].
  - replace (e - ez) with 0 by lia. lia.
  - lia.
  - rewrite iter_xO_value. f_equal. f_equal. lia.
Qed.

(** Shifting right keeps a mantissa non-negative. *)
Lemma shr_1_nonneg (mrs : shr_record) : 0 <= shr_m mrs -> 0 <= shr_m (shr_1 mrs).
Proof.
  destruct mrs as [m r s]. cbn [shr_m]. intros H.
  destruct m as [| [p | p |] | p]; cbn; lia.
Qed.

Lemma iter_pos_nonneg (p : positive) (mrs : shr_record) :
  0 <= shr_m mrs -> 0 <= shr_m (iter_pos shr_1 p mrs).
Proof.
  revert mrs. induction p as [p IH | p IH |]; intros mrs H; cbn [iter_pos].
  - apply IH, IH, shr_1_nonneg, H.
  - apply IH, IH, H.
  - apply shr_1_nonneg, H.
Qed.

Lemma shr_fexp_nonneg (m e : Z) (l : location) :
  0 <= m -> 0 <= shr_m (fst (shr_fexp prec emax m e l)).
Proof.
  intros H. unfold shr_fexp, shr.
  assert (H0 : 0 <= shr_m (shr_record_of_loc m l)).
  { destruct l as [| []]; exact H. }
  destruct (fexp prec emax (Zdigits2 m + e) - e); cbn [fst]; auto.
  now apply iter_pos_nonneg.
Qed.

Lemma round_nearest_even_nonneg m l : 0 <= m -> 0 <= round_nearest_even m l.
Proof.
  intros H. destruct l as [| []]; cbn [round_nearest_even]; try lia.
  destruct (Z.even m); lia.
Qed.

Lemma binary_round_aux_nonneg (m e : Z) (l : location) :
  0 <= m -> nonneg_sf (binary_round_aux prec emax false m e l) = true.
Proof.
  intros H. unfold binary_round_aux.
  pose proof (shr_fexp_nonneg m e l H) as H1.
  destruct (shr_fexp prec emax m e l) as [mrs' e']. cbn [fst] in H1.
  pose proof (shr_fexp_nonneg _ e' loc_Exact
                (round_nearest_even_nonneg _ (loc_of_shr_record mrs') H1)) as H2.
  destruct (shr_fexp prec emax (round_nearest_even (shr_m mrs') (loc_of_shr_record mrs')) e' loc_Exact) as [mrs'' e''].
  cbn [fst] in H2.
  destruct (shr_m mrs'') as [| p | p]; [reflexivity | | lia].
  destruct (e'' <=? emax - prec); reflexivity.
Qed.

Lemma binary_normalize_nonneg (m e : Z) :
  0 <= m -> nonneg_sf (binary_normalize prec emax m e false) = true.
Proof.
  intros H. destruct m as [| p | p]; cbn [binary_normalize]; [reflexivity | | lia].
  unfold binary_round.
  destruct (shl_align p e (fexp prec emax (Zpos (digits2_pos p) + e))) as [mz ez].
  apply binary_round_aux_nonneg. lia.
Qed.

Lemma nonneg_sf_leb (x : spec_float) :
  nonneg_sf x = true -> SFleb (S754_zero false) x = true.
Proof. destruct x as [s | [] | | [] m e]; cbn; congruence. Qed.

Lemma bounded_digits (m : positive) (e : Z) :
  bounded prec emax m e = true ->
  Zpos (digits2_pos m) <= 53 /\ -1074 <= e /\
  (-1074 < e -> Zpos (digits2_pos m) = 53).
Proof.
  unfold bounded, canonical_mantissa, fexp, emin, prec, emax.
  intros H. apply andb_prop in H as [H _]. apply Z.eqb_eq in H. lia.
Qed.

Lemma pow2_ge_2 (d : Z) : 1 <= d -> 2 <= 2 ^ d.
Proof.
  intros H. change 2 with (2 ^ 1) at 1. apply Z.pow_le_mono_r; lia.
Qed.

(** Of two valid numbers, the one with the larger exponent is larger. *)
Lemma aligned_lt (ma mb : positive) (ea eb : Z) :
  bounded prec emax ma ea = true ->
  bounded prec emax mb eb = true ->
  ea < eb ->
  Zpos (fst (shl_align ma ea (Z.min eb ea)))
  < Zpos (fst (shl_align mb eb (Z.min eb ea))).
Proof.
  intros Ha Hb Hlt.
  rewrite !shl_align_value by lia.
  replace (Z.min eb ea) with ea by lia.
  replace (ea - ea) with 0 by lia. rewrite Z.pow_0_r, Z.mul_1_r.
  apply bounded_digits in Ha as (Hda & Hea & _).
  apply bounded_digits in Hb as (_ & _ & Hdb).
  specialize (Hdb ltac:(lia)).
  pose proof (digits2_pos_bounds ma) as [_ Hma].
  pose proof (digits2_pos_bounds mb) as [Hmb _].
  rewrite Hdb in Hmb. change (2 ^ (53 - 1)) with 4503599627370496 in Hmb.
  assert (Zpos ma < 9007199254740992).
  { eapply Z.lt_le_trans; [exact Hma |].
    change 9007199254740992 with (2 ^ 53). apply Z.pow_le_mono_r; lia. }
  pose proof (pow2_ge_2 (eb - ea) ltac:(lia)). nia.
Qed.

Lemma aligned_same (m : positive) (e : Z) :
  fst (shl_align m e (Z.min e e)) = m.
Proof.
  unfold shl_align. rewrite Z.min_id, Z.sub_diag. reflexivity.
Qed.

Lemma compare_cont_Eq (p q : positive) :
  Pos.compare_cont Eq p q = Pos.compare p q.
Proof. reflexivity. Qed.

(** The exact difference of two ordered finite numbers is not negative. *)
Lemma finite_leb_difference (sa sb : bool) (ma mb : positive) (ea eb : Z) :
  bounded prec emax ma ea = true ->
  bounded prec emax mb eb = true ->
  SFleb (S754_finite sa ma ea) (S754_finite sb mb eb) = true ->
  0 <= cond_Zopp sb (Zpos (fst (shl_align mb eb (Z.min eb ea))))
       - cond_Zopp sa (Zpos (fst (shl_align ma ea (Z.min eb ea)))).
Proof.
  intros Ha Hb Hle. unfold SFleb, SFcompare in Hle.
  destruct sa, sb; cbn [cond_Zopp]; try discriminate Hle; try lia.
  - (* both negative *)
    destruct (Z.compare_spec ea eb) as [Heq | Hlt | Hgt]; try discriminate Hle.
    + subst eb. rewrite !aligned_same.
      rewrite compare_cont_Eq in Hle.
      destruct (Pos.compare_spec ma mb); cbn in Hle; try discriminate Hle; lia.
    + pose proof (aligned_lt mb ma eb ea Hb Ha Hgt) as H.
      rewrite Z.min_comm in H. lia.
  - (* both positive *)
    destruct (Z.compare_spec ea eb) as [Heq | Hlt | Hgt]; try discriminate Hle.
    + subst eb. rewrite !aligned_same.
      rewrite compare_cont_Eq in Hle.
      destruct (Pos.compare_spec ma mb); cbn in Hle; try discriminate Hle; lia.
    + pose proof (aligned_lt ma mb ea eb Ha Hb Hlt) as H. lia.
Qed.

Lemma SFsub_nonneg (a b : spec_float) :
  SpecFloat.valid_binary prec emax a = true ->
  SpecFloat.valid_binary prec emax b = true ->
  finite_sf a = true -> finite_sf b = true ->
  SFleb a b = true ->
  SFleb (S754_zero false) (SF64sub b a) = true.
Proof.
  intros Va Vb Fa Fb Hle. apply nonneg_sf_leb.
  destruct a as [sa | sa | | sa ma ea]; try discriminate Fa;
    destruct b as [sb | sb | | sb mb eb]; try discriminate Fb;
    unfold SF64sub, SFsub.
  - destruct sb, sa; reflexivity.
  - cbn in Hle. destruct sb; [discriminate Hle | reflexivity].
  - cbn in Hle. destruct sa; [reflexivity | discriminate Hle].
  - apply binary_normalize_nonneg.
    now apply finite_leb_difference.
Qed.

End FloatDifference.

Lemma finite_spec (t : float) : Full.finite t = finite_sf (Prim2SF t).
Proof. unfold Full.finite. now destruct (Prim2SF t). Qed.

(** The float difference of two finite readings in order is not negative. *)
Lemma float_sub_nonneg (x y : float) :
  Full.finite x = true -> Full.finite y = true ->
  (x <=? y)%float = true -> (0 <=? y - x)%float = true.
Proof.
  rewrite !finite_spec. intros Fx Fy Hle.
  rewrite leb_spec in *. rewrite sub_spec.
  change (Prim2SF 0) with (S754_zero false).
  apply SFsub_nonneg; auto using Prim2SF_valid.
Qed.

Section FullWrapperFacts.

Variable env : Type.
Variable time_time : env -> float * env.
Variable kickoff : env -> Full.ending string * env.

(** Both wrappers along one run whose first clock reading is finite. *)
Lemma full_execute_run (w w1 w2 w3 w4 : env) (t0 start_time now : float)
      (seconds : Z) (result : Full.ending string) :
  time_time w = (t0, w1) ->
  Full.int_of_float t0 = Full.Value seconds ->
  time_time w1 = (start_time, w2) ->
  kickoff w2 = (result, w3) ->
  time_time w3 = (now, w4) ->
  Full.execute time_time kickoff w
  = match result with
    | Full.Value report =>
        (Full.Value
           {| Full.execution_id := ("exec_" ++ string_of_Z seconds)%string;
              Full.status := "success";
              Full.report := report;
              Full.error := None;
              Full.execution_time_seconds := (now - start_time)%float |}, w4)
    | Full.Raise e =>
        (Full.Value
           {| Full.execution_id := ("exec_" ++ string_of_Z seconds)%string;
              Full.status := "failure";
              Full.report := "";
              Full.error :=
                Some ("Crew execution failed: "
                      ++ string_of_list_ascii (str_of e))%string;
              Full.execution_time_seconds := (now - start_time)%float |}, w4)
    | Full.Escape name => (Full.Escape name, w3)
    end.
Proof.
  intros H0 Hint H1 H2 H3. unfold Full.execute. rewrite H0, Hint, H1, H2.
  destruct result; [rewrite H3 | rewrite H3 |]; reflexivity.
Qed.

Lemma full_execute_async_run (w w1 w2 w3 w4 : env) (t0 start_time now : float)
      (seconds : Z) (result : Full.ending string) :
  time_time w = (t0, w1) ->
  Full.int_of_float t0 = Full.Value seconds ->
  time_time w1 = (start_time, w2) ->
  kickoff w2 = (result, w3) ->
  time_time w3 = (now, w4) ->
  Full.execute_async time_time kickoff w
  = match result with
    | Full.Value report =>
        (Full.Value
           {| Full.execution_id := ("exec_" ++ string_of_Z seconds)%string;
              Full.status := "success";
              Full.report := report;
              Full.error := None;
              Full.execution_time_seconds := (now - start_time)%float |}, w4)
    | Full.Raise e =>
        (Full.Value
           {| Full.execution_id := ("exec_" ++ string_of_Z seconds)%string;
              Full.status := "failure";
              Full.report := "";
              Full.error :=
                Some ("Async crew execution failed: "
                      ++ string_of_list_ascii (str_of e))%string;
              Full.execution_time_seconds := (now - start_time)%float |}, w4)
    | Full.Escape name => (Full.Escape name, w3)
    end.
Proof.
  intros H0 Hint H1 H2 H3. unfold Full.execute_async. rewrite H0, Hint, H1, H2.
  destruct result; [rewrite H3 | rewrite H3 |]; reflexivity.
Qed.

End FullWrapperFacts.

(** C9 (as the code has it). Take a run of [execute] or [execute_async]
    whose first clock reading is finite.  If the orchestration call returns,
    or raises an instance of [Exception], the caller gets a result record
    and no exception: its status is "success" or "failure"; after an
    [Exception] it is "failure" and the error text is the wrapper's prefix
    followed by the exception's message; and [execution_time_seconds] is the
    float difference of the two clock readings around the call, which is
    not negative whenever both readings are finite and the second is not
    below the first.  If the call raises an exception that is not an
    instance of [Exception], no record is made and that exception reaches
    the caller. *)
Theorem wrapper_record_or_escape
        (env : Type) (time_time : env -> float * env)
        (kickoff : env -> Full.ending string * env)
        (w w1 w2 w3 w4 : env) (t0 start_time now : float)
        (seconds : Z) (result : Full.ending string) :
  time_time w = (t0, w1) ->
  Full.int_of_float t0 = Full.Value seconds ->
  time_time w1 = (start_time, w2) ->
  kickoff w2 = (result, w3) ->
  time_time w3 = (now, w4) ->
  match result with
  | Full.Escape name =>
      Full.execute time_time kickoff w = (Full.Escape name, w3) /\
      Full.execute_async time_time kickoff w = (Full.Escape name, w3)
  | _ =>
      (exists r,
          Full.execute time_time kickoff w = (Full.Value r, w4) /\
          (Full.status r = "success"%string \/ Full.status r = "failure"%string) /\
          (forall e, result = Full.Raise e ->
                     Full.status r = "failure"%string /\
                     Full.error r
                     = Some ("Crew execution failed: "
                             ++ string_of_list_ascii (str_of e))%string) /\
          Full.execution_time_seconds r = (now - start_time)%float /\
          ((start_time <=? now)%float = true ->
           Full.finite start_time = true -> Full.finite now = true ->
           (0 <=? Full.execution_time_seconds r)%float = true)) /\
      (exists r,
          Full.execute_async time_time kickoff w = (Full.Value r, w4) /\
          (Full.status r = "success"%string \/ Full.status r = "failure"%string) /\
          (forall e, result = Full.Raise e ->
                     Full.status r = "failure"%string /\
                     Full.error r
                     = Some ("Async crew execution failed: "
                             ++ string_of_list_ascii (str_of e))%string) /\
          Full.execution_time_seconds r = (now - start_time)%float /\
          ((start_time <=? now)%float = true ->
           Full.finite start_time = true -> Full.finite now = true ->
           (0 <=? Full.execution_time_seconds r)%float = true))
  end.
Proof.
  intros H0 Hint H1 H2 H3.
  rewrite (full_execute_run env time_time kickoff _ _ _ _ _ _ _ _ _ _
                            H0 Hint H1 H2 H3).
  rewrite (full_execute_async_run env time_time kickoff _ _ _ _ _ _ _ _ _ _
                                  H0 Hint H1 H2 H3).
  assert (Hsign : (start_time <=? now)%float = true ->
                  Full.finite start_time = true -> Full.finite now = true ->
                  (0 <=? now - start_time)%float = true).
  { intros Hle Fs Fn. now apply float_sub_nonneg. }
  destruct result as [report | e | name].
  - split; eexists; (split; [reflexivity |]);
      cbn [Full.status Full.error Full.execution_time_seconds];
      (split; [now left |]); (split; [discriminate |]); (split; [reflexivity |]);
      exact Hsign.
  - split; eexists; (split; [reflexivity |]);
      cbn [Full.status Full.error Full.execution_time_seconds];
      (split; [now right |]);
      (split; [intros e' [= <-]; split; reflexivity |]);
      (split; [reflexivity |]); exact Hsign.
  - split; reflexivity.
Qed.

Lemma wrapper_record_or_escape_witness :
  (exists r,
      Full.execute site_time site_kickoff engine_fails
      = (Full.Value r,
         {| site_readings := []; site_engine := Full.Raise boom;
            site_answers := [] |}) /\
      (Full.status r = "success"%string \/ Full.status r = "failure"%string) /\
      (forall e, Full.Raise (A := string) boom = Full.Raise e ->
                 Full.status r = "failure"%string /\
                 Full.error r
                 = Some ("Crew execution failed: "
                         ++ string_of_list_ascii (str_of e))%string) /\
      Full.execution_time_seconds r = (107.5 - 100)%float /\
      ((100 <=? 107.5)%float = true ->
       Full.finite 100 = true -> Full.finite 107.5 = true ->
       (0 <=? Full.execution_time_seconds r)%float = true)) /\
  (exists r,
      Full.execute_async site_time site_kickoff engine_fails
      = (Full.Value r,
         {| site_readings := []; site_engine := Full.Raise boom;
            site_answers := [] |}) /\
      (Full.status r = "success"%string \/ Full.status r = "failure"%string) /\
      (forall e, Full.Raise (A := string) boom = Full.Raise e ->
                 Full.status r = "failure"%string /\
                 Full.error r
                 = Some ("Async crew execution failed: "
                         ++ string_of_list_ascii (str_of e))%string) /\
      Full.execution_time_seconds r = (107.5 - 100)%float /\
      ((100 <=? 107.5)%float = true ->
       Full.finite 100 = true -> Full.finite 107.5 = true ->
       (0 <=? Full.execution_time_seconds r)%float = true)).
Proof.
  exact (wrapper_record_or_escape
           site site_time site_kickoff
           engine_fails
           {| site_readings := [100; 107.5]%float; site_engine := Full.Raise boom;
              site_answers := [] |}
           {| site_readings := [107.5]%float; site_engine := Full.Raise boom;
              site_answers := [] |}
           {| site_readings := [107.5]%float; site_engine := Full.Raise boom;
              site_answers := [] |}
           {| site_readings := []; site_engine := Full.Raise boom;
              site_answers := [] |}
           100%float 100%float 107.5%float 100%Z (Full.Raise boom)
           eq_refl eq_refl eq_refl eq_refl eq_refl).
Defined.

(** C9 (as stated, refuted). When the wall clock is set back while the
    engine runs, both wrappers return a record whose
    [execution_time_seconds] is negative; and when the engine's call is
    cancelled, both wrappers raise [CancelledError] to the caller and
    return no record. *)
Lemma wrapper_negative_time_and_escape :
  (exists r w',
      Full.execute site_time site_kickoff clock_goes_back = (Full.Value r, w') /\
      (Full.execution_time_seconds r <? 0)%float = true) /\
  (exists r w',
      Full.execute_async site_time site_kickoff clock_goes_back
      = (Full.Value r, w') /\
      (Full.execution_time_seconds r <? 0)%float = true) /\
  (exists w',
      Full.execute site_time site_kickoff engine_cancelled
      = (Full.Escape cancelled, w')) /\
  (exists w',
      Full.execute_async site_time site_kickoff engine_cancelled
      = (Full.Escape cancelled, w')).
Proof.
  repeat split; repeat eexists; vm_compute; reflexivity.
Qed.

(** The recorded time is the rounded difference: between the readings 1
    and 1e16 it is 1e16, not 9999999999999999. *)
Example wrapper_time_is_rounded :
  exists r w',
    Full.execute site_time site_kickoff clock_far_apart = (Full.Value r, w') /\
    Full.execution_time_seconds r = 1e16%float.
Proof.
  do 2 eexists. split; [vm_compute; reflexivity | vm_compute; reflexivity].
Qed.

(** A first reading that is not a number makes [int(time.time())] raise
    before the [try]: the caller gets that exception. *)
Example wrapper_clock_not_a_number :
  exists e w',
    Full.execute site_time site_kickoff
                 {| site_readings := [nan]%float;
                    site_engine := Full.Value "report"%string;
                    site_answers := [] |}
    = (Full.Raise e, w').
Proof. do 2 eexists. vm_compute. reflexivity. Qed.

(** * The notifier and the scheduler's job with every ending *)

Section FullNotifierFacts.

Variable outside : Type.
Variable send : outside -> send_request -> outside * Full.ending unit.
Variable sleep : outside -> nat -> outside * option str.
Variable chat_id : str.

(** The outer handler of [send_message] leaves no [Exception] over: the
    call returns, or ends with an exception that is not one. *)
Lemma full_send_message_no_raise (message : str) (parse_mode : option str)
      (disable_preview : bool) (w : world outside) (e : exception) :
  snd (Full.send_message send sleep chat_id message parse_mode disable_preview w)
  <> Full.Raise e.
Proof.
  unfold Full.send_message, Full.try_except.
  destruct (Full.bind
              (Full.deliver send sleep chat_id parse_mode disable_preview
                            (length (_split_message message))
                            (enumerate_from 0 (_split_message message)))
              (fun _ => Full.ret true) w) as [w' [ok | e' | name]];
    cbn; discriminate.
Qed.

End FullNotifierFacts.

Section Refinement.

Variable bot : Type.
Variable send : bot -> send_request -> bot * option exception.
Variable chat_id : str.
Variable parse_mode : option str.
Variable disable_preview : bool.

Lemma full_deliver_chunk_refines (n i : nat) (chunk : str) (w : world bot) :
  Full.deliver_chunk (uninterrupted send) sound_sleep chat_id parse_mode
                     disable_preview n i chunk w
  = (fst (deliver_chunk send chat_id parse_mode disable_preview n i chunk w),
     ending_of (snd (deliver_chunk send chat_id parse_mode disable_preview
                                   n i chunk w))).
Proof.
  unfold Full.deliver_chunk, Full.try_except, Full.bind, Full.await_send,
    Full.await_sleep, Full.ret, Full.raise, uninterrupted, sound_sleep.
  rewrite deliver_chunk_eq.
  destruct (send (w_bot w) (request chat_id chunk parse_mode disable_preview))
    as [b1 [e |]]; cbn [answer_of w_bot w_trace].
  - destruct (is_TelegramError e); cbn [andb]; [| reflexivity].
    destruct (is_parse_error e); [| reflexivity].
    unfold await_send. cbn [w_bot w_trace].
    destruct (send b1 (request chat_id chunk None disable_preview))
      as [b2 [e2 |]]; reflexivity.
  - destruct (Z.of_nat i <? Z.of_nat n - 1)%Z; reflexivity.
Qed.

Lemma full_deliver_refines (n : nat) (ichunks : list (nat * str)) (w : world bot) :
  Full.deliver (uninterrupted send) sound_sleep chat_id parse_mode
               disable_preview n ichunks w
  = (fst (deliver send chat_id parse_mode disable_preview n ichunks w),
     ending_of (snd (deliver send chat_id parse_mode disable_preview n ichunks w))).
Proof.
  revert w. induction ichunks as [| [i chunk] rest IH]; intros w;
    cbn [Full.deliver deliver]; [reflexivity |].
  unfold Full.bind, bind. rewrite full_deliver_chunk_refines.
  destruct (deliver_chunk send chat_id parse_mode disable_preview n i chunk w)
    as [w1 [e | []]]; cbn [fst snd ending_of]; [reflexivity |].
  apply IH.
Qed.

(** On an endpoint that never interrupts, and with waits that are never
    interrupted, [Full.send_message] does what [send_message] does. *)
Lemma full_send_message_refines (message : str) (w : world bot) :
  Full.send_message (uninterrupted send) sound_sleep chat_id message
                    parse_mode disable_preview w
  = (fst (send_message send chat_id message parse_mode disable_preview w),
     ending_of (snd (send_message send chat_id message parse_mode
                                  disable_preview w))).
Proof.
  unfold Full.send_message, Full.try_except, Full.bind, Full.ret.
  rewrite full_deliver_refines.
  unfold send_message, try_except, bind, ret.
  destruct (deliver send chat_id parse_mode disable_preview
                    (length (_split_message message))
                    (enumerate_from 0 (_split_message message)) w)
    as [w' [e | []]]; reflexivity.
Qed.

End Refinement.

(** X11. [test_connection] returns [False], with nothing sent, when
    [get_me] raises an instance of [Exception]; it raises what [get_me]
    raises when that is not an instance of [Exception]; and once [get_me]
    has returned it returns [True] whether [send_message] answered [True] or
    [False], raising only if a call inside [send_message] raised an
    exception that is not an [Exception]. *)
Theorem test_connection_outcome
        (outside : Type)
        (send : outside -> send_request -> outside * Full.ending unit)
        (get_me : outside -> outside * Full.ending str)
        (sleep : outside -> nat -> outside * option str)
        (chat_id check_mark : str) (w : world outside) :
  Full.test_connection send get_me sleep chat_id check_mark w
  = match get_me (w_bot w) with
    | (o, Full.Escape name) =>
        ({| w_bot := o; w_trace := w_trace w |}, Full.Escape name)
    | (o, Full.Raise _) =>
        ({| w_bot := o; w_trace := w_trace w |}, Full.Value false)
    | (o, Full.Value _) =>
        let (w', sent) :=
          Full.send_message send sleep chat_id (connection_text check_mark)
                            MARKDOWN true
                            {| w_bot := o; w_trace := w_trace w |} in
        (w', match sent with
             | Full.Escape name => Full.Escape name
             | _ => Full.Value true
             end)
    end.
Proof.
  unfold Full.test_connection, Full.try_except, Full.bind, Full.await_get_me,
    Full.ret.
  destruct (get_me (w_bot w)) as [o [me | e | name]]; try reflexivity.
  pose proof (full_send_message_no_raise
                outside send sleep chat_id (connection_text check_mark)
                MARKDOWN true {| w_bot := o; w_trace := w_trace w |}) as Hno.
  destruct (Full.send_message send sleep chat_id (connection_text check_mark)
                              MARKDOWN true
                              {| w_bot := o; w_trace := w_trace w |})
    as [w' [ok | e | name]]; try reflexivity.
  exfalso. now apply (Hno e).
Qed.

(** A run of it: [get_me] answers, the endpoint refuses the only send of
    the test message with a time-out, and the answer is still [True]. *)
Example test_connection_endpoint_down :
  Full.test_connection site_send site_get_me site_sleep chat sample_sign
                       {| w_bot := endpoint_down; w_trace := [] |}
  = ({| w_bot := {| site_readings := [];
                    site_engine := Full.Value "report"%string;
                    site_answers := [] |};
        w_trace := [Send (request chat (connection_text sample_sign)
                                  MARKDOWN true)] |},
     Full.Value true).
Proof. vm_compute. reflexivity. Qed.

(** X12. Take a run of the scheduler's job whose first clock reading is
    finite.  If the engine returns, or raises an instance of [Exception],
    the job makes exactly one [send_message] call: with the header followed
    by the report in the first case, with the fixed text of [send_error] in
    the second, a text that depends neither on the exception nor on the
    record's error text; the job then returns, unless a call inside
    [send_message] raised an exception that is not an [Exception], which it
    raises.  If the engine raises an exception that is not an instance of
    [Exception], the job raises it and sends nothing. *)
Theorem execute_research_notifies_once
        (outside : Type)
        (send : outside -> send_request -> outside * Full.ending unit)
        (sleep : outside -> nat -> outside * option str)
        (loop_time : outside -> float)
        (time_time : outside -> float * outside)
        (kickoff : outside -> Full.ending string * outside)
        (chat_id warning_sign : str) (format_header : float -> float -> str)
        (w : world outside) (o1 o2 o3 o4 : outside)
        (t0 start_time now : float) (seconds : Z)
        (result : Full.ending string) :
  time_time (w_bot w) = (t0, o1) ->
  Full.int_of_float t0 = Full.Value seconds ->
  time_time o1 = (start_time, o2) ->
  kickoff o2 = (result, o3) ->
  time_time o3 = (now, o4) ->
  Full.execute_research send sleep loop_time time_time kickoff chat_id
                        warning_sign format_header w
  = let notify := fun message =>
      let (w', sent) :=
        Full.send_message send sleep chat_id message MARKDOWN true
                          {| w_bot := o4; w_trace := w_trace w |} in
      (w', match sent with
           | Full.Escape name => Full.Escape name
           | _ => Full.Value tt
           end) in
    match result with
    | Full.Value report =>
        notify (format_header (now - start_time)%float (loop_time o4)
                ++ list_ascii_of_string report)
    | Full.Raise _ => notify (error_text warning_sign)
    | Full.Escape name =>
        ({| w_bot := o3; w_trace := w_trace w |}, Full.Escape name)
    end.
Proof.
  intros H0 Hint H1 H2 H3.
  unfold Full.execute_research, Full.try_except, Full.bind,
    Full.await_execute_async, Full.ret.
  rewrite (full_execute_async_run outside time_time kickoff _ _ _ _ _ _ _ _ _ _
                                  H0 Hint H1 H2 H3).
  cbv zeta.
  destruct result as [text | e | name]; [| | reflexivity].
  - cbn [Full.status Full.report Full.execution_time_seconds].
    change (String.eqb "success" "success") with true. cbv beta iota.
    unfold Full.send_report. cbn [w_bot].
    pose proof (full_send_message_no_raise
                  outside send sleep chat_id
                  (format_header (now - start_time)%float (loop_time o4)
                   ++ list_ascii_of_string text)
                  MARKDOWN true {| w_bot := o4; w_trace := w_trace w |}) as Hno.
    destruct (Full.send_message
                send sleep chat_id
                (format_header (now - start_time)%float (loop_time o4)
                 ++ list_ascii_of_string text)
                MARKDOWN true {| w_bot := o4; w_trace := w_trace w |})
      as [w' [ok | e | name]]; try reflexivity.
    exfalso. now apply (Hno e).
  - cbn [Full.status Full.error].
    change (String.eqb "failure" "success") with false. cbv beta iota.
    unfold Full.send_error.
    pose proof (full_send_message_no_raise
                  outside send sleep chat_id (error_text warning_sign)
                  MARKDOWN true {| w_bot := o4; w_trace := w_trace w |}) as Hno.
    destruct (Full.send_message
                send sleep chat_id (error_text warning_sign)
                MARKDOWN true {| w_bot := o4; w_trace := w_trace w |})
      as [w' [ok | e' | name]]; try reflexivity.
    exfalso. now apply (Hno e').
Qed.

Lemma execute_research_notifies_once_witness :
  Full.execute_research site_send site_sleep site_loop_time site_time
                        site_kickoff chat sample_sign sample_header
                        {| w_bot := engine_fails; w_trace := [] |}
  = let (w', sent) :=
      Full.send_message site_send site_sleep chat (error_text sample_sign)
                        MARKDOWN true
                        {| w_bot := {| site_readings := [];
                                       site_engine := Full.Raise boom;
                                       site_answers := [] |};
                           w_trace := [] |} in
    (w', match sent with
         | Full.Escape name => Full.Escape name
         | _ => Full.Value tt
         end).
Proof.
  exact (execute_research_notifies_once
           site site_send site_sleep site_loop_time site_time site_kickoff
           chat sample_sign sample_header
           {| w_bot := engine_fails; w_trace := [] |}
           {| site_readings := [100; 107.5]%float; site_engine := Full.Raise boom;
              site_answers := [] |}
           {| site_readings := [107.5]%float; site_engine := Full.Raise boom;
              site_answers := [] |}
           {| site_readings := [107.5]%float; site_engine := Full.Raise boom;
              site_answers := [] |}
           {| site_readings := []; site_engine := Full.Raise boom;
              site_answers := [] |}
           100%float 100%float 107.5%float 100%Z (Full.Raise boom)
           eq_refl eq_refl eq_refl eq_refl eq_refl).
Defined.

(** A run of it: the task is cancelled while the engine runs; the job
    raises [CancelledError] and nothing is sent. *)
Example execute_research_cancelled :
  Full.execute_research site_send site_sleep site_loop_time site_time
                        site_kickoff chat sample_sign sample_header
                        {| w_bot := engine_cancelled; w_trace := [] |}
  = ({| w_bot := {| site_readings := [107.5]%float;
                    site_engine := Full.Escape cancelled;
                    site_answers := [] |};
        w_trace := [] |},
     Full.Escape cancelled).
Proof. vm_compute. reflexivity. Qed.

(** * The constructor of the notifier and the entry point, in full *)

(** X6. [TelegramNotifier(...)] either builds an object whose token and
    chat id are both non-empty strings (each the explicit argument when
    that is non-empty, the environment's value otherwise), or raises
    [ValueError].  The token is looked at first: when neither the argument
    nor TELEGRAM_BOT_TOKEN gives a non-empty string the error is the one
    about the token, whatever the chat id is; the error about the chat id
    comes only when a token is there and no chat id is. *)
Theorem notifier_init_outcome (getenv : environ) (bot_token chat_id : option str) :
  match TelegramNotifier_init getenv bot_token chat_id with
  | inr self =>
      (exists token, self_bot_token self = Some token /\ token <> []) /\
      (exists chat, self_chat_id self = Some chat /\ chat <> []) /\
      self_bot_token self
      = (if truthy_opt bot_token then bot_token else getenv TELEGRAM_BOT_TOKEN) /\
      self_chat_id self
      = (if truthy_opt chat_id then chat_id else getenv TELEGRAM_CHAT_ID)
  | inl error =>
      if truthy_opt bot_token || truthy_opt (getenv TELEGRAM_BOT_TOKEN)
      then
        truthy_opt chat_id = false /\
        truthy_opt (getenv TELEGRAM_CHAT_ID) = false /\
        error = list_ascii_of_string "TELEGRAM_CHAT_ID not found in environment"
      else
        error = list_ascii_of_string "TELEGRAM_BOT_TOKEN not found in environment"
  end.
Proof.
  unfold TelegramNotifier_init, py_or.
  destruct (truthy_opt bot_token) eqn:Ht; cbn [orb].
  - rewrite Ht. cbn [negb].
    destruct (truthy_opt chat_id) eqn:Hc.
    + rewrite Hc. cbn [negb self_bot_token self_chat_id].
      repeat split; auto; now apply truthy_opt_true.
    + destruct (truthy_opt (getenv TELEGRAM_CHAT_ID)) eqn:Hce;
        cbn [negb self_bot_token self_chat_id].
      * repeat split; auto; now apply truthy_opt_true.
      * auto.
  - destruct (truthy_opt (getenv TELEGRAM_BOT_TOKEN)) eqn:Hte; cbn [negb].
    + destruct (truthy_opt chat_id) eqn:Hc.
      * rewrite Hc. cbn [negb self_bot_token self_chat_id].
        repeat split; auto; now apply truthy_opt_true.
      * destruct (truthy_opt (getenv TELEGRAM_CHAT_ID)) eqn:Hce;
          cbn [negb self_bot_token self_chat_id].
        -- repeat split; auto; now apply truthy_opt_true.
        -- auto.
    + reflexivity.
Qed.

Lemma truthy_opt_false (a : option str) :
  truthy_opt a = false <-> a = None \/ a = Some [].
Proof.
  destruct a as [[| c s] |]; cbn; split; auto; try discriminate.
  all: intros [H | H]; discriminate H.
Qed.

(** X8. From the first line of [main]: if [load_dotenv] or [setup_logging]
    raises, [main] raises and checks nothing.  Otherwise, if one of the
    four required variables is unset or empty, [main] reports exactly the
    variables that are, and exits, whatever the arguments (the mode is not
    looked at).  Otherwise it runs the mode named by the first argument when
    that is exactly "test", "once" or "schedule", runs "once" when there is
    no argument, and for any other first argument prints the usage and
    exits. *)
Theorem main_entry_outcome (startup : option str) (getenv : environ)
        (argv : list str) :
  match startup with
  | Some e => main_entry startup getenv argv = StartupRaised e
  | None =>
      (Exists (fun var => getenv var = None \/ getenv var = Some [])
              required_vars ->
       exists missing_vars,
         main_entry startup getenv argv = Started (ExitMissing missing_vars) /\
         missing_vars <> [] /\
         forall var,
           In var missing_vars <->
           In var required_vars /\ (getenv var = None \/ getenv var = Some [])) /\
      (Forall (fun var => exists v, getenv var = Some v /\ v <> [])
              required_vars ->
       let mode :=
         match argv with
         | _ :: first :: _ => first
         | _ => list_ascii_of_string "once"
         end in
       (mode = list_ascii_of_string "test" ->
        main_entry startup getenv argv = Started RunTest) /\
       (mode = list_ascii_of_string "once" ->
        main_entry startup getenv argv = Started RunOnce) /\
       (mode = list_ascii_of_string "schedule" ->
        main_entry startup getenv argv = Started RunScheduled) /\
       (mode <> list_ascii_of_string "test" ->
        mode <> list_ascii_of_string "once" ->
        mode <> list_ascii_of_string "schedule" ->
        main_entry startup getenv argv = Started ExitUsage))
  end.
Proof.
  destruct startup as [e |]; [reflexivity |].
  unfold main_entry, main. split.
  - intros Hmissing.
    assert (Hin : forall var,
               In var (filter (fun var => negb (truthy_opt (getenv var)))
                              required_vars) <->
               In var required_vars /\
               (getenv var = None \/ getenv var = Some [])).
    { intros var. rewrite filter_In, negb_true_iff, truthy_opt_false.
      reflexivity. }
    apply Exists_exists in Hmissing as (var & Hvar & Hunset).
    assert (Hone : In var (filter (fun var => negb (truthy_opt (getenv var)))
                                  required_vars)) by now apply Hin.
    destruct (filter (fun var => negb (truthy_opt (getenv var))) required_vars)
      as [| first missing] eqn:Hfilter; [destruct Hone |].
    exists (first :: missing). split; [reflexivity |].
    split; [discriminate | exact Hin].
  - intros Hset.
    assert (Hnone : filter (fun var => negb (truthy_opt (getenv var)))
                           required_vars = []).
    { apply filter_nil_iff. eapply Forall_impl; [| exact Hset].
      cbn beta. intros var H. apply negb_false_iff. now apply truthy_opt_true. }
    remember (match argv with
              | _ :: first :: _ => first
              | _ => list_ascii_of_string "once"
              end) as mode eqn:Emode.
    assert (Hmode : (if 1 <? length argv then nth 1 argv []
                     else list_ascii_of_string "once") = mode).
    { subst mode. destruct argv as [| prog [| first rest]]; reflexivity. }
    clear Emode. rewrite Hnone, Hmode.
    repeat split.
    + intros ->. reflexivity.
    + intros ->. reflexivity.
    + intros ->. reflexivity.
    + intros Htest Honce Hsched.
      destruct (str_eqb mode (list_ascii_of_string "test")) eqn:H1;
        [apply str_eqb_eq in H1; contradiction |].
      destruct (str_eqb mode (list_ascii_of_string "once")) eqn:H2;
        [apply str_eqb_eq in H2; contradiction |].
      destruct (str_eqb mode (list_ascii_of_string "schedule")) eqn:H3;
        [apply str_eqb_eq in H3; contradiction |].
      reflexivity.
Qed.
